(** * CVTS pre-processing (vtra/preprocess/cvts.py): trace reduction,
      map matching, traffic counts and route collection.

    The Python functions are embedded as Rocq functions of the same name.
    Exceptions are values of [result]; a csv file is the list of its rows,
    a row the list of its fields: their texts for [csv.reader(source)], and
    for a reader with [quoting=csv.QUOTE_NONNUMERIC] the fields as [Cell]s,
    which say whether a field is quoted.  Python floats are kept abstract
    in the class [PyFloat], so every theorem holds for IEEE binary64
    arithmetic as well as for the exact rationals used to evaluate
    examples; what shapely and rtree compute is kept abstract in the class
    [RoadGeometry], exceptions included. *)

From Stdlib Require Import ZArith QArith Qabs Qminmax String Ascii Bool Lia.
From Stdlib Require Import DecimalString.
From stdpp Require Import base option list gmap.

Local Open Scope nat_scope.

(** ** Exceptions *)

(** [GeometryError] stands for the exceptions of shapely and rtree. *)
Inductive exn : Type :=
  IndexError | ValueError | KeyError | TypeError | GeometryError.

Inductive result (A : Type) : Type :=
| Ok (a : A)
| Raise (e : exn).
Arguments Ok {A} a.
Arguments Raise {A} e.

Definition bind {A B} (c : result A) (k : A -> result B) : result B :=
  match c with
  | Ok a => k a
  | Raise e => Raise e
  end.

Notation "'let*' x := c 'in' k" := (bind c (fun x => k))
  (at level 10, x name, c at level 100, k at level 200).

(** [[f(x) for x in l]] when [f] may raise: the first exception wins. *)
Fixpoint mapM {A B} (f : A -> result B) (l : list A) : result (list B) :=
  match l with
  | [] => Ok []
  | x :: l' => let* y := f x in let* ys := mapM f l' in Ok (y :: ys)
  end.

(** A [for] loop over [l] whose body updates the loop state [s] and may
    raise. *)
Fixpoint foldM {A S} (f : S -> A -> result S) (s : S) (l : list A) : result S :=
  match l with
  | [] => Ok s
  | x :: l' => let* s' := f s x in foldM f s' l'
  end.

(** [row[i]] *)
Definition index {A} (row : list A) (i : nat) : result A :=
  match row !! i with
  | Some x => Ok x
  | None => Raise IndexError
  end.

(** ** Python floats *)

Class PyFloat : Type := {
  F : Type;
  float : string -> result F;        (* float(s), ValueError when s is no number *)
  fsub : F -> F -> F;                (* a - b *)
  fmul : F -> F -> F;                (* a * b *)
  fabs : F -> F;                     (* abs(a) *)
  fge : F -> F -> bool;              (* a >= b *)
  fgt : F -> F -> bool;              (* a > b *)
  flt : F -> F -> bool;              (* a < b *)
  int_of_float : F -> result Z;      (* int(a), raises on nan and inf *)
  int_of_text : string -> result Z;  (* int(s), ValueError when s is no integer *)
  f_0_001 : F;                       (* the literal 0.001 *)
  f_0_01 : F;                        (* the literal 0.01 *)
  f_0_8 : F;                         (* the literal 0.8 *)
  f_0_7 : F                          (* the literal 0.7 *)
}.

(** ** Fields of a csv file *)

(** A field as it stands in a file: its text, and whether it is written
    between quotes. *)
Record Cell : Type := mkCell { quoted : bool; text : string }.

(** A field written without quotes. *)
Definition unquoted (s : string) : Cell := mkCell false s.

(** A field of a row read with [quoting=csv.QUOTE_NONNUMERIC]: a float,
    or the text the reader leaves as it is. *)
Inductive value (A : Type) : Type :=
| Num (x : A)
| Text (s : string).
Arguments Num {A} x.
Arguments Text {A} s.

(** ** File names *)

Definition csv_suffix : string := ".csv".

(** [file.endswith(".csv")] *)
Definition endswith_csv (file : string) : bool :=
  let n := String.length file in
  (4 <=? n) && String.eqb (substring (n - 4) 4 file) csv_suffix.

(** [file.replace('.csv', '')]: every occurrence is removed, left to right;
    [skip] counts the characters of a match still to drop. *)
Fixpoint remove_csv (skip : nat) (file : string) : string :=
  match file with
  | EmptyString => EmptyString
  | String c rest =>
      match skip with
      | S k => remove_csv k rest
      | O => if String.prefix csv_suffix file then remove_csv 3 rest
             else String c (remove_csv 0 rest)
      end
  end.

Section Cvts.
Context {py_float : PyFloat}.

(** ** reduse_dataset *)

Definition MIN_LAT_MOV : F := f_0_001.
Definition MIN_LON_MOV : F := f_0_001.
Definition MIN_LAT_SAMPLE : F := f_0_01.
Definition MIN_LON_SAMPLE : F := f_0_01.

(** One element of [data]: the list [[row[2], row[3], row[8]]]. *)
Record GpsRow : Type := mkGpsRow { lat : string; lon : string; time : string }.

(** [[row[2], row[3], row[8]]] of a csv row. *)
Definition select_columns (row : list string) : result GpsRow :=
  let* a := index row 2 in let* b := index row 3 in let* c := index row 8 in
  Ok (mkGpsRow a b c).

(** The csv row written for an element of [data_moving]. *)
Definition written_row (r : GpsRow) : list string := [lat r; lon r; time r].

(** [data[1:-1]] *)
Definition slice_1_m1 {A} (data : list A) : list A := removelast (tail data).

(** [abs(float(a[0]) - float(b[0])) >= min_lat or
     abs(float(a[1]) - float(b[1])) >= min_lon], the test applied to
    (previous, current) and to (data_moving[-1], current). *)
Definition movement (min_lat min_lon : F) (a b : GpsRow) : result bool :=
  let* a0 := float (lat a) in let* b0 := float (lat b) in
  let lat_mov := fabs (fsub a0 b0) in
  let* a1 := float (lon a) in let* b1 := float (lon b) in
  let lon_mov := fabs (fsub a1 b1) in
  Ok (fge lat_mov min_lat || fge lon_mov min_lon).

(** The body of the loop over [zip(data[1:-1], data[2:])]. *)
Definition reduse_step (data_moving : list GpsRow) (pair : GpsRow * GpsRow)
  : result (list GpsRow) :=
  let '(previous, current) := pair in
  let* moving := movement MIN_LAT_MOV MIN_LON_MOV previous current in
  if moving then
    if length data_moving =? 0 then Ok (data_moving ++ [current])
    else
      let* anchor := match last data_moving with
                   | Some r => Ok r
                   | None => Raise IndexError
                   end in
      let* sampled := movement MIN_LAT_SAMPLE MIN_LON_SAMPLE anchor current in
      if sampled then Ok (data_moving ++ [current]) else Ok data_moving
  else Ok data_moving.

(** The loop of [reduse_dataset] over one file's [data]. *)
Definition reduse_rows (data : list GpsRow) : result (list GpsRow) :=
  foldM reduse_step [] (zip (slice_1_m1 data) (drop 2 data)).

(** One file of [reduse_dataset]: the rows read from [source] to the rows
    written to [sink]. An exception leaves the function (nothing catches
    it). *)
Definition reduse_dataset (rows : list (list string)) : result (list (list string)) :=
  let* data := mapM select_columns rows in
  let* data_moving := reduse_rows data in
  Ok (map written_row data_moving).


(** ** find_routes *)

(** [NUM_RETURN_JOURNEY]: how many other edges must have been passed before
    a previously driven edge is counted again. *)
Definition NUM_RETURN_JOURNEY : nat := 5.


(** The reader converts the fields that are neither quoted nor empty with
    [float]; a quoted field and an empty field stay texts. *)
Definition read_cell (c : Cell) : result (value F) :=
  if quoted c then Ok (Text (text c))
  else if String.eqb (text c) EmptyString then Ok (Text EmptyString)
  else let* x := float (text c) in Ok (Num x).

(** [[row for row in reader]] for a reader with
    [quoting=csv.QUOTE_NONNUMERIC]. *)
Definition read_nonnumeric (rows : list (list Cell))
  : result (list (list (value F))) :=
  mapM (mapM read_cell) rows.

(** What shapely and rtree compute on the road network; [previous] and
    [current] are the end points of [route_segment], whose buffer of
    [BUFFER_SIZE] is [route_segment_buf]. The calls that look up
    [road_network_lut], build a geometry or query the index may raise. *)
Class RoadGeometry : Type := {
  (* route_segment = LineString([previous, current]), its buffer, then
     list(rtree.intersection(route_segment_buf.bounds)) *)
  candidates : F * F -> F * F -> result (list Z);
  (* route_segment.length *)
  segment_length : F * F -> F * F -> F;
  (* road_network_lut[edge_id].length *)
  edge_length : Z -> result F;
  (* road_network_lut[edge_id].intersection(route_segment_buf).length *)
  overlap_length : Z -> F * F -> F * F -> result F;
  (* the coordinate Point makes of a text: an exception, or the number the
     text stands for, as the shapely release decides *)
  text_coordinate : string -> result F;
  (* whether LineString([]) is an empty geometry (it is in some shapely
     releases) rather than an error *)
  empty_linestring_ok : bool
}.

Context {geometry_of_network : RoadGeometry}.

(** A coordinate of [Point(row[0], row[1])]. *)
Definition coordinate (v : value F) : result F :=
  match v with
  | Num x => Ok x
  | Text s => text_coordinate s
  end.

(** [Point(x, y)], as the coordinate tuple [geom.coords] gives back. *)
Definition Point (x y : value F) : result (F * F) :=
  let* a := coordinate x in let* b := coordinate y in Ok (a, b).

(** [LineString(points)]: at least two coordinate tuples are required. *)
Definition LineString (points : list (F * F)) : result (list (F * F)) :=
  match points with
  | [] => if empty_linestring_ok then Ok [] else Raise ValueError
  | [_] => Raise ValueError
  | _ => Ok points
  end.

(** [route[-n:]] for [n > 0] *)
Definition last_entries {A} (n : nat) (route : list A) : list A :=
  drop (length route - n) route.

(** The two rules that set [add_route_id], the lengths being computed in
    the order of the two conditions; [and] evaluates its second operand
    only when the first holds. *)
Definition add_route_id (edge_id : Z) (previous current : F * F) : result bool :=
  let* overlap := overlap_length edge_id previous current in
  if fgt overlap (fmul (segment_length previous current) f_0_8) then Ok true
  else
    let* length_of_edge := edge_length edge_id in
    if flt length_of_edge (segment_length previous current) then
      let* overlap' := overlap_length edge_id previous current in
      let* length_of_edge' := edge_length edge_id in
      Ok (fgt overlap' (fmul length_of_edge' f_0_7))
    else Ok false.

(** The body of the loop over the candidate edges of one segment. *)
Definition visit_edge (previous current : F * F) (timestamp : value F)
    (route : list (Z * value F)) (edge_id : Z) : result (list (Z * value F)) :=
  let* accepted := add_route_id edge_id previous current in
  if accepted then
    if bool_decide (edge_id ∈ map fst (last_entries NUM_RETURN_JOURNEY route))
    then Ok route
    else Ok (route ++ [(edge_id, timestamp)])
  else Ok route.

(** The body of the loop over
    [zip(list(geom.coords), list(geom.coords)[1:], timestamps)]. *)
Definition match_segment (route : list (Z * value F))
    (item : (F * F) * (F * F) * value F) : result (list (Z * value F)) :=
  let '(previous, current, timestamp) := item in
  let* edges := candidates previous current in
  foldM (visit_edge previous current timestamp) route edges.

(** The statements inside [try:] up to the construction of [route]. *)
Definition find_route (rows : list (list Cell)) : result (list (Z * value F)) :=
  let* data := read_nonnumeric rows in
  let* points := mapM (fun row => let* x := index row 0 in
                                  let* y := index row 1 in Point x y) data in
  let* coords := LineString points in
  let* timestamps := mapM (fun row => index row 2) data in
  foldM match_segment [] (zip (zip coords (tail coords)) timestamps).

(** What [find_routes] leaves for one trace file: the rows of the route
    file (opened for writing before [try:], so it exists and is empty when
    the body raises) and the message printed by [except:], when any. *)
Definition route_file (file : string) (rows : list (list Cell))
  : list (Z * value F) * option string :=
  match find_route rows with
  | Ok route => (route, None)
  | Raise _ => ([], Some ("Unable to find route for " ++ file)%string)
  end.

(** [find_routes] over the files of [gps_points_folder]: the files of
    [routes_folder], and the messages printed. *)
Definition find_routes (files : list (string * list (list Cell)))
  : list (string * list (Z * value F)) * list string :=
  let csvs := filter (fun f => endswith_csv (fst f) = true) files in
  (map (fun f => (fst f, fst (route_file (fst f) (snd f)))) csvs,
   omap (fun f => snd (route_file (fst f) (snd f))) csvs).

(** ** add_traffic_count_to_road_network *)

(** A feature of the road network: its identifier and its geometry. *)
Record Road : Type := mkRoad { g_id : Z; geometry : list (F * F) }.

(** [road_network_lut] after the first loop: the last road of each
    identifier, with ['vehicle_co'] set to 0. *)
Definition seed_counts (road_network : list Road) : gmap Z (Road * nat) :=
  fold_left (fun lut road => <[g_id road := (road, 0)]> lut) road_network ∅.

(** [road_network_lut[int(route_edge[0])]['properties']['vehicle_co'] += 1],
    a row of a route file being given by the integer of its first field
    and by its second field. *)
Definition count_entry (lut : gmap Z (Road * nat)) (route_edge : Z * value F)
  : result (gmap Z (Road * nat)) :=
  match lut !! fst route_edge with
  | Some (road, n) => Ok (<[fst route_edge := (road, S n)]> lut)
  | None => Raise KeyError
  end.

(** The loop over the route files. *)
Definition count_routes (lut : gmap Z (Road * nat))
    (route_files : list (string * list (Z * value F))) : result (gmap Z (Road * nat)) :=
  foldM (fun lut f => foldM count_entry lut (snd f)) lut
        (filter (fun f => endswith_csv (fst f) = true) route_files).

(** The keys of [road_network_lut] in the order of a Python dict: that of
    their first insertion. *)
Definition lut_keys (road_network : list Road) : list Z :=
  reverse (remove_dups (reverse (map g_id road_network))).

(** The roads returned, [[road[1] for road in road_network_lut.items()]],
    each with its ['vehicle_co']. *)
Definition add_traffic_count_to_road_network (road_network : list Road)
    (route_files : list (string * list (Z * value F))) : result (list (Road * nat)) :=
  let* lut := count_routes (seed_counts road_network) route_files in
  Ok (omap (fun k => lut !! k) (lut_keys road_network)).

(** ** create_single_route_file *)

Record RouteRecord : Type := mkRouteRecord {
  vehicle_id : string;
  edge_path : list Z;
  time_stamp : list Z
}.

(** [int(elem[1])] *)
Definition int_of_value (v : value F) : result Z :=
  match v with
  | Num x => int_of_float x
  | Text s => int_of_text s
  end.

(** One element of [routes_collected], a row of a route file being given
    by the integer of its first field, [int(elem[0])], and by its second
    field. *)
Definition collect_route (f : string * list (Z * value F)) : result RouteRecord :=
  let* stamps := mapM (fun elem => int_of_value (snd elem)) (snd f) in
  Ok (mkRouteRecord (remove_csv 0 (fst f)) (map fst (snd f)) stamps).

Definition create_single_route_file (route_files : list (string * list (Z * value F)))
  : result (list RouteRecord) :=
  mapM collect_route (filter (fun f => endswith_csv (fst f) = true) route_files).

End Cvts.

(** ** What the claims say, in the vocabulary of the specification *)

Section SpecWords.
Context {py_float : PyFloat}.

(** The latitude or the longitude of [b] differs from that of [a] by at
    least the threshold. *)
Definition delta_at_least (min_lat min_lon : F) (a b : GpsRow) : Prop :=
  exists a0 b0 a1 b1,
    float (lat a) = Ok a0 /\ float (lat b) = Ok b0 /\
    float (lon a) = Ok a1 /\ float (lon b) = Ok b1 /\
    (fge (fabs (fsub a0 b0)) min_lat = true \/
     fge (fabs (fsub a1 b1)) min_lon = true).

(** The latitude or the longitude of [b] differs from that of [a] by more
    than the threshold. *)
Definition delta_exceeds (min_lat min_lon : F) (a b : GpsRow) : Prop :=
  exists a0 b0 a1 b1,
    float (lat a) = Ok a0 /\ float (lat b) = Ok b0 /\
    float (lon a) = Ok a1 /\ float (lon b) = Ok b1 /\
    (fgt (fabs (fsub a0 b0)) min_lat = true \/
     fgt (fabs (fsub a1 b1)) min_lon = true).

(** The latitude and the longitude of the row are numbers. *)
Definition numeric_row (r : GpsRow) : Prop :=
  exists a b, float (lat r) = Ok a /\ float (lon r) = Ok b.

(** [p] and [c] are the rows at positions [i] and [i + 1] of [data]
    (counted from 0), [i] being at least 1. *)
Definition consecutive_at (data : list GpsRow) (i : nat) (p c : GpsRow) : Prop :=
  1 <= i /\ data !! i = Some p /\ data !! S i = Some c.

(** Neighbours in the output are at least a sampling interval apart. *)
Definition sampled_chain (rows : list GpsRow) : Prop :=
  forall j a b, rows !! j = Some a -> rows !! S j = Some b ->
    movement MIN_LAT_SAMPLE MIN_LON_SAMPLE a b = Ok true.

Context {geometry_of_network : RoadGeometry}.

(** The long-edge rule: the overlap of the edge with the buffer is longer
    than 80% of the segment. *)
Definition long_edge_rule (edge_id : Z) (previous current : F * F) : Prop :=
  exists overlap,
    overlap_length edge_id previous current = Ok overlap /\
    fgt overlap (fmul (segment_length previous current) f_0_8) = true.

(** The short-edge rule: the edge is shorter than the segment, and its
    overlap with the buffer is longer than 70% of the edge. *)
Definition short_edge_rule (edge_id : Z) (previous current : F * F) : Prop :=
  exists overlap length_of_edge,
    overlap_length edge_id previous current = Ok overlap /\
    edge_length edge_id = Ok length_of_edge /\
    flt length_of_edge (segment_length previous current) = true /\
    fgt overlap (fmul length_of_edge f_0_7) = true.

(** The candidate edges of the segment, when the index gives them. *)
Definition candidate (edge_id : Z) (previous current : F * F) : Prop :=
  exists edges, candidates previous current = Ok edges /\ edge_id ∈ edges.

(** The point of a row: [Point(row[0], row[1])]. *)
Definition point_at (row : list (value F)) (point : F * F) : Prop :=
  exists x y, row !! 0 = Some x /\ row !! 1 = Some y /\ Point x y = Ok point.

(** Rows [k] and [k + 1] of a reduced trace (counted from 0) hold the
    points [previous] and [current], with timestamps [t_previous] and
    [t_current]. *)
Definition segment_at (data : list (list (value F))) (k : nat)
    (previous current : F * F) (t_previous t_current : value F) : Prop :=
  exists row_p row_c,
    data !! k = Some row_p /\ data !! S k = Some row_c /\
    point_at row_p previous /\ row_p !! 2 = Some t_previous /\
    point_at row_c current /\ row_c !! 2 = Some t_current.

(** A record the matcher can use: the reader converts its fields, there
    are three or more, and the first two make a point. *)
Definition numeric_record (row : list Cell) : Prop :=
  exists fields point,
    mapM read_cell row = Ok fields /\ 2 < length fields /\
    point_at fields point.

(** A record of the trace cannot be parsed as numeric: one of its fields,
    neither quoted nor empty, is not a number. *)
Definition non_numeric (rows : list (list Cell)) : Prop :=
  exists row field e,
    row ∈ rows /\ field ∈ row /\
    quoted field = false /\ text field <> EmptyString /\
    float (text field) = Raise e.

(** Two occurrences of an edge identifier in a route have at least [k]
    entries between them. *)
Definition suppressed (k : nat) (route : list (Z * value F)) : Prop :=
  forall i j e,
    i < j -> fst <$> route !! i = Some e -> fst <$> route !! j = Some e -> i + k < j.

(** The entries of all route files: the (route, entry) pairs. *)
Definition all_entries (route_files : list (string * list (Z * value F)))
  : list (Z * value F) :=
  concat (map snd (filter (fun f => endswith_csv (fst f) = true) route_files)).

(** The entries that name an edge absent from the network. *)
Definition dangling_entries (road_network : list Road)
    (entries : list (Z * value F)) : list (Z * value F) :=
  filter (fun entry => fst entry ∉ map g_id road_network) entries.

(** How many entries name the edge. *)
Definition visits (edge_id : Z) (entries : list (Z * value F)) : nat :=
  length (filter (fun entry => fst entry = edge_id) entries).

(** The sum of all traffic counts. *)
Definition traffic_sum (counted : list (Road * nat)) : nat :=
  sum_list_with snd counted.

(** The state of the aggregator once the entries [seen] are counted. *)
Definition counts_ok (road_network : list Road) (lut : gmap Z (Road * nat))
    (seen : list (Z * value F)) : Prop :=
  (forall k, is_Some (lut !! k) <-> k ∈ map g_id road_network) /\
  (forall k road n, lut !! k = Some (road, n) ->
     g_id road = k /\ n = visits k seen) /\
  traffic_sum (map snd (map_to_list lut)) = length seen /\
  Forall (fun entry => fst entry ∈ map g_id road_network) seen.

End SpecWords.

(** ** Exact rationals as floats, to evaluate the functions *)

Definition digit (c : ascii) : option Z :=
  let n := nat_of_ascii c in
  if (48 <=? n) && (n <=? 57) then Some (Z.of_nat (n - 48)) else None.

(** Digits with at most one point, at least one digit. *)
Fixpoint decimal (s : string) (num : Z) (den : positive) (point seen : bool)
  : option Q :=
  match s with
  | EmptyString => if seen then Some (Qmake num den) else None
  | String c rest =>
      if Ascii.eqb c "." then
        if point then None else decimal rest num den true seen
      else
        match digit c with
        | Some d => decimal rest (10 * num + d)%Z
                            (if point then (10 * den)%positive else den) point true
        | None => None
        end
  end.

(** [float] on plain decimal literals with an optional sign. *)
Definition Qfloat (s : string) : result Q :=
  let body := match s with
              | String "-" rest => option_map Qopp (decimal rest 0 1 false false)
              | _ => decimal s 0 1 false false
              end in
  match body with
  | Some q => Ok q
  | None => Raise ValueError
  end.

(** [int] on plain digits with an optional sign. *)
Fixpoint digits (s : string) (num : Z) (seen : bool) : option Z :=
  match s with
  | EmptyString => if seen then Some num else None
  | String c rest =>
      match digit c with
      | Some d => digits rest (10 * num + d)%Z true
      | None => None
      end
  end.

Definition Zint (s : string) : result Z :=
  let body := match s with
              | String "-" rest => option_map Z.opp (digits rest 0 false)
              | _ => digits s 0 false
              end in
  match body with
  | Some n => Ok n
  | None => Raise ValueError
  end.

Definition QFloat : PyFloat := {|
  F := Q;
  float := Qfloat;
  fsub := Qminus;
  fmul := Qmult;
  fabs := Qabs;
  fge := fun a b => Qle_bool b a;
  fgt := fun a b => negb (Qle_bool a b);
  flt := fun a b => negb (Qle_bool b a);
  int_of_float := fun a => Ok (Z.quot (Qnum a) (Zpos (Qden a)));
  int_of_text := Zint;
  f_0_001 := Qmake 1 1000;
  f_0_01 := Qmake 1 100;
  f_0_8 := Qmake 8 10;
  f_0_7 := Qmake 7 10
|}.

(** A row of a raw CVTS file: latitude, longitude and timestamp at
    positions 3, 4 and 9. *)
Definition raw_row (latitude longitude timestamp : string) : list string :=
  ["51C-1"; "0"; latitude; longitude; "0"; "0"; "0"; "0"; timestamp]%string.

(** Traces: a header line, then rows of latitude, longitude, time. *)
Definition header : GpsRow := mkGpsRow "Latitude" "Longitude" "Time".

(** The vehicle stands still. *)
Definition still_trace : list GpsRow :=
  [header; mkGpsRow "0" "0" "1"; mkGpsRow "0" "0" "2"].

(** The vehicle moves by exactly the stillness threshold. *)
Definition threshold_trace : list GpsRow :=
  [header; mkGpsRow "0" "0" "1"; mkGpsRow "0.001" "0" "2"].

(** The vehicle moves east, with one small step on the way. *)
Definition moving_trace : list GpsRow :=
  [header; mkGpsRow "0" "0" "1"; mkGpsRow "1" "0" "2";
   mkGpsRow "1.005" "0" "3"; mkGpsRow "2" "0" "4"].

(** Reduced traces, rows of latitude, longitude, time: the vehicle moves
    along the first axis. *)
Definition short_trip : list (list Cell) :=
  map (map unquoted) [["0"; "0"; "100"]; ["1"; "0"; "200"]]%string.

Definition east_trip : list (list Cell) :=
  map (map unquoted)
      [["0"; "0"; "100"]; ["1"; "0"; "200"]; ["2"; "0"; "300"]]%string.

(** A trace whose first latitude is not a number. *)
Definition garbled_trip : list (list Cell) :=
  map (map unquoted) [["north"; "0"; "100"]; ["1"; "0"; "200"]]%string.

(** A trace whose rows end with an empty field, and one whose time fields
    are quoted texts: the reader converts neither. *)
Definition untimed_trip : list (list Cell) :=
  map (map unquoted)
      [["0"; "0"; EmptyString]; ["1"; "0"; EmptyString]]%string.

Definition noon_trip : list (list Cell) :=
  [[unquoted "0"; unquoted "0"; mkCell true "noon"];
   [unquoted "1"; unquoted "0"; mkCell true "one"]]%string.

Definition batch : list (string * list (list Cell)) :=
  [("a.csv", short_trip); ("b.csv", garbled_trip); ("c.csv", east_trip)]%string.

(** A number as a field read from a file. *)
Definition QNum (x : Q) : value Q := Num x.

(** A network of two roads, and route files over it. *)
Definition two_roads : list (@Road QFloat) :=
  [@mkRoad QFloat 1 [(0, 0); (1, 0)]%Q; @mkRoad QFloat 2 [(1, 0); (2, 0)]%Q].

Definition counted_routes : list (string * list (Z * value Q)) :=
  [("a.csv"%string, [(1%Z, QNum 100); (2%Z, QNum 200)]);
   ("b.csv"%string, [(1%Z, QNum 300)])].

(** The last route names edge 3, which the network does not have. *)
Definition late_stray_routes : list (string * list (Z * value Q)) :=
  [("b.csv"%string, [(1%Z, QNum 300)]); ("a.csv"%string, [(3%Z, QNum 100)])].

(** The first route names edge 3, which the network does not have. *)
Definition stray_routes : list (string * list (Z * value Q)) :=
  [("a.csv"%string, [(3%Z, QNum 100)]); ("b.csv"%string, [(1%Z, QNum 300)])].

(** A network of one road, edge 7, from (0, 0) to (3, 0), for traces that
    run along the first axis: the buffer ([BUFFER_SIZE] = 0.002) of a
    segment from x1 to x2 meets the road between x1 - 0.002 and
    x2 + 0.002. *)
Definition axis_overlap (previous current : Q * Q) : Q :=
  let lo := Qmax 0 (Qmin (fst previous) (fst current) - Qmake 2 1000)%Q in
  let hi := Qmin 3 (Qmax (fst previous) (fst current) + Qmake 2 1000)%Q in
  if Qle_bool lo hi then (hi - lo)%Q else 0%Q.

Definition axis_length (previous current : Q * Q) : Q :=
  Qabs (fst current - fst previous)%Q.

(** No call raises; a text given as a coordinate is converted like a
    field of the file. *)
Definition axis_geometry : @RoadGeometry QFloat :=
  @Build_RoadGeometry QFloat
    (fun _ _ => Ok [7%Z]) axis_length (fun _ => Ok 3%Q)
    (fun _ previous current => Ok (axis_overlap previous current))
    Qfloat true.

(** The same network, with a spatial index that raises for the segments
    that start at 1 or further east. *)
Definition broken_geometry : @RoadGeometry QFloat :=
  @Build_RoadGeometry QFloat
    (fun previous _ => if Qle_bool 1 (fst previous) then Raise GeometryError
                       else Ok [7%Z])
    axis_length (fun _ => Ok 3%Q)
    (fun _ previous current => Ok (axis_overlap previous current))
    Qfloat true.

(** ** The walk of [reduse_dataset], and the functions outside [main] *)

Section CvtsWalks.
Context {py_float : PyFloat}.

(** The two loops of [reduse_dataset] over the files of [source_dir]: the
    sinks written, and the exception that ends the walk, when any. The
    sink of a file is opened before its rows are read, so the file that
    raises leaves an empty sink. *)
Fixpoint reduse_dataset_walk (files : list (string * list (list string)))
  : list (string * list (list string)) * option exn :=
  match files with
  | [] => ([], None)
  | f :: rest =>
      if endswith_csv (fst f) then
        match reduse_dataset (snd f) with
        | Ok out =>
            let '(sinks, e) := reduse_dataset_walk rest in
            ((fst f, out) :: sinks, e)
        | Raise e => ([(fst f, [])], Some e)
        end
      else reduse_dataset_walk rest
  end.

(** An element of [geojson] in [process_gps_trace_into_points]. *)
Record PointFeature : Type := mkPointFeature {
  coordinates : F * F;
  feature_id : string;
  feature_time : string
}.

(** The dictionary built from a row: [float(row[0])], [float(row[1])],
    then [row[2]]. *)
Definition point_feature (file : string) (row : list string)
  : result PointFeature :=
  let* a := index row 0 in let* x := float a in
  let* b := index row 1 in let* y := float b in
  let* t := index row 2 in
  Ok (mkPointFeature (x, y) file t).

(** [for row in reader: geojson.append(...)] inside [try:]: the features
    appended, and whether a row raised. *)
Fixpoint point_rows (file : string) (rows : list (list string))
  : list PointFeature * bool :=
  match rows with
  | [] => ([], false)
  | row :: rest =>
      match point_feature file row with
      | Ok feature =>
          let '(features, raised) := point_rows file rest in
          (feature :: features, raised)
      | Raise _ => ([], true)
      end
  end.

(** One file: [next(reader)] skips the first row, and raises
    [StopIteration] when the file has none. *)
Definition points_of_file (file : string) (rows : list (list string))
  : list PointFeature * bool :=
  match rows with
  | [] => ([], true)
  | _ :: rest => point_rows file rest
  end.

(** [process_gps_trace_into_points]: [geojson], and the files for which
    the message of [except:] is printed. *)
Definition process_gps_trace_into_points
    (files : list (string * list (list string)))
  : list PointFeature * list string :=
  let csvs := filter (fun f => endswith_csv (fst f) = true) files in
  (concat (map (fun f => fst (points_of_file (fst f) (snd f))) csvs),
   map fst (filter (fun f => snd (points_of_file (fst f) (snd f)) = true) csvs)).

(** What [csv.writer] leaves in a file for a field of a row of two or
    more fields, as a reader finds it again. *)
Class CsvWriter : Type := {
  (* the field where a text was written *)
  written_text : string -> Cell;
  (* the field where a float was written *)
  written_float : F -> Cell
}.

Context {csv_writer : CsvWriter}.

(** The field where a value read from another file was written. *)
Definition written_value (v : value F) : Cell :=
  match v with
  | Num x => written_float x
  | Text s => written_text s
  end.

(** The files of the reducer, as the matcher finds them. *)
Definition written_files (files : list (string * list (list string)))
  : list (string * list (list Cell)) :=
  map (fun f => (fst f, map (map written_text) (snd f))) files.

(** [str(n)] for an integer, which [csv.writer] writes without quotes. *)
Definition str_of_int (n : Z) : string := NilZero.string_of_int (Z.to_int n).

(** A row [[edge_id, timestamp]] of a route, written by [find_routes] and
    read back with [quoting=csv.QUOTE_NONNUMERIC]: the reader converts the
    two fields, then [int(route_edge[0])] is taken. *)
Definition reread_entry (entry : Z * value F) : result (Z * value F) :=
  let* first := read_cell (unquoted (str_of_int (fst entry))) in
  let* second := read_cell (written_value (snd entry)) in
  let* edge_id := int_of_value first in
  Ok (edge_id, second).

(** The route files read back. *)
Definition reread_routes (route_files : list (string * list (Z * value F)))
  : result (list (string * list (Z * value F))) :=
  mapM (fun f => let* route := mapM reread_entry (snd f) in Ok (fst f, route))
       route_files.

Section Clip.
(** [Point(row[0], row[1]).within(road_network_area)], the area being the
    convex hull of the road network; it raises when shapely rejects a
    coordinate. *)
Variable within : value F -> value F -> result bool.

(** One row of the comprehension in [clip_gps_points]: the reader converts
    the fields, then the point of the first two is tested. *)
Definition clip_row (row : list Cell) : result (option (list (value F))) :=
  let* fields := mapM read_cell row in
  let* x := index fields 0 in
  let* y := index fields 1 in
  let* inside := within x y in
  Ok (if inside then Some fields else None).

(** One file of [clip_gps_points]: the rows written to [sink]. *)
Definition clip_gps_points (rows : list (list Cell))
  : result (list (list Cell)) :=
  let* tested := mapM clip_row rows in
  Ok (map (map written_value) (omap (fun kept => kept) tested)).

End Clip.

(** *** Vocabulary for the properties of these functions *)

(** The row with its time field rewritten. *)
Definition retime (g : string -> string) (r : GpsRow) : GpsRow :=
  mkGpsRow (lat r) (lon r) (g (time r)).

Definition result_map {A B} (f : A -> B) (c : result A) : result B :=
  match c with
  | Ok a => Ok (f a)
  | Raise e => Raise e
  end.

(** The last road of the network with its identifier. *)
Definition last_with_id (road_network : list Road) (road : Road) : Prop :=
  exists before after,
    road_network = before ++ road :: after /\
    g_id road ∉ map g_id after.

(** A road with the number of entries that name it. *)
Definition annotate (entries : list (Z * value F)) (road : Road) : Road * nat :=
  (road, visits (g_id road) entries).

(** No character of the name is a dot. *)
Fixpoint dot_free (name : string) : Prop :=
  match name with
  | EmptyString => True
  | String c rest => c <> "."%char /\ dot_free rest
  end.

End CvtsWalks.

(** *** Inputs for the properties of these functions *)

(** A trace far east of the road of [axis_geometry]. *)
Definition far_trip : list (list Cell) :=
  map (map unquoted) [["10"; "0"; "100"]; ["11"; "0"; "200"]]%string.

(** The network of [axis_geometry]. *)
Definition axis_network : list (@Road QFloat) :=
  [@mkRoad QFloat 7 [(0, 0); (3, 0)]%Q].

(** Two roads with the identifier 1, and the road 2 between them. *)
Definition twin_roads : list (@Road QFloat) :=
  [@mkRoad QFloat 1 [(0, 0); (1, 0)]%Q; @mkRoad QFloat 2 [(1, 0); (2, 0)]%Q;
   @mkRoad QFloat 1 [(5, 0); (6, 0)]%Q].

(** Raw files: the second has a row of one field. *)
Definition raw_trip : list (list string) :=
  [raw_row "Latitude" "Longitude" "Time"; raw_row "0" "0" "100";
   raw_row "1" "0" "200"; raw_row "2" "0" "300"].

Definition raw_batch : list (string * list (list string)) :=
  [("a.csv", raw_trip); ("b.csv", [["51C-2"]]); ("c.csv", raw_trip)]%string.

(** A file of points whose third row has a latitude that is no number. *)
Definition points_file : list (list string) :=
  [["lat"; "lon"; "time"]; ["0"; "0"; "t1"]; ["north"; "0"; "t2"];
   ["1"; "0"; "t3"]]%string.

(** The area of the points whose first coordinate is at most 1/2; a text
    is no coordinate. *)
Definition west_half (x y : value Q) : result bool :=
  match x, y with
  | Num a, Num _ => Ok (Qle_bool a (Qmake 1 2))
  | _, _ => Raise TypeError
  end.

(** [csv.writer] on whole numbers, written like 1.0, and on texts, quoted
    when they hold a comma, a quote or a line break. *)
Definition Qrepr (x : Q) : string :=
  (str_of_int (Z.quot (Qnum x) (Zpos (Qden x))) ++ ".0")%string.

Fixpoint needs_quotes (s : string) : bool :=
  match s with
  | EmptyString => false
  | String c rest =>
      Ascii.eqb c "," || Ascii.eqb c "034" || Ascii.eqb c "010"
      || Ascii.eqb c "013" || needs_quotes rest
  end.

Definition Qwriter : @CsvWriter QFloat :=
  @Build_CsvWriter QFloat
    (fun s => mkCell (needs_quotes s) s) (fun x => unquoted (Qrepr x)).

(** * Theorems *)

(** ** The exception monad *)

Lemma bind_Ok {A B} (c : result A) (k : A -> result B) (b : B) :
  bind c k = Ok b -> exists a, c = Ok a /\ k a = Ok b.
Proof. destruct c as [a|e]; simpl; [eauto | discriminate]. Qed.

Ltac inv_bind H :=
  let a := fresh "a" in
  let Ha := fresh "Ha" in
  apply bind_Ok in H; destruct H as (a & Ha & H).

Lemma foldM_app {A S} (f : S -> A -> result S) (l1 l2 : list A) (s : S) :
  foldM f s (l1 ++ l2) = bind (foldM f s l1) (fun s' => foldM f s' l2).
Proof.
  revert s; induction l1 as [|x l1 IH]; intros s; simpl; [done|].
  destruct (f s x); simpl; [apply IH | done].
Qed.

Lemma mapM_length {A B} (f : A -> result B) (l : list A) (l' : list B) :
  mapM f l = Ok l' -> length l' = length l.
Proof.
  revert l'; induction l as [|x l IH]; intros l' Hm; simpl in Hm.
  - by inversion Hm.
  - inv_bind Hm. inv_bind Hm. inversion Hm; subst; simpl. f_equal; eauto.
Qed.

Lemma mapM_lookup {A B} (f : A -> result B) (l : list A) (l' : list B) i x :
  mapM f l = Ok l' -> l !! i = Some x -> exists y, l' !! i = Some y /\ f x = Ok y.
Proof.
  revert l' i; induction l as [|z l IH]; intros l' i Hm Hi; [done|].
  simpl in Hm. inv_bind Hm. inv_bind Hm. inversion Hm; subst.
  destruct i as [|i]; simpl in *.
  - inversion Hi; subst; eauto.
  - eauto.
Qed.

Lemma mapM_lookup_inv {A B} (f : A -> result B) (l : list A) (l' : list B) i y :
  mapM f l = Ok l' -> l' !! i = Some y -> exists x, l !! i = Some x /\ f x = Ok y.
Proof.
  intros Hm Hi. destruct (l !! i) as [x|] eqn:Hx.
  - destruct (mapM_lookup _ _ _ _ _ Hm Hx) as (y' & Hy' & Hf).
    exists x. split; [done | congruence].
  - apply lookup_ge_None in Hx. apply mapM_length in Hm.
    apply lookup_lt_Some in Hi. lia.
Qed.

Lemma mapM_app {A B} (f : A -> result B) (l1 l2 : list A) :
  mapM f (l1 ++ l2)
  = bind (mapM f l1) (fun a => bind (mapM f l2) (fun b => Ok (a ++ b))).
Proof.
  induction l1 as [|x l1 IH]; simpl.
  - by destruct (mapM f l2).
  - destruct (f x); simpl; [|done]. rewrite IH.
    destruct (mapM f l1); simpl; [|done]. by destruct (mapM f l2).
Qed.

Lemma index_Ok {A} (row : list A) i x : index row i = Ok x -> row !! i = Some x.
Proof. unfold index. destruct (row !! i); [congruence | discriminate]. Qed.

Lemma mapM_Ok_all {A B} (f : A -> result B) (l : list A) :
  (forall x, x ∈ l -> exists y, f x = Ok y) -> exists l', mapM f l = Ok l'.
Proof.
  induction l as [|x l IH]; intros Hall; simpl; [eauto|].
  destruct (Hall x) as [y ->]; [left|]. simpl.
  destruct IH as [l' ->]; [intros; apply Hall; by right|]. simpl. eauto.
Qed.

Lemma mapM_Raise {A B} (f : A -> result B) (l : list A) x e :
  x ∈ l -> f x = Raise e -> exists e', mapM f l = Raise e'.
Proof.
  induction l as [|z l IH]; intros Hin Hf; [by apply elem_of_nil in Hin|].
  apply elem_of_cons in Hin as [->|Hin]; simpl.
  - rewrite Hf; simpl; eauto.
  - destruct (f z); simpl; [|eauto].
    destruct (IH Hin Hf) as [e' ->]; simpl; eauto.
Qed.

(** ** The trace reducer *)

Section Reducer.
Context {py_float : PyFloat}.

(** [movement] returns [True] exactly when a delta is at least its
    threshold. *)
Lemma movement_true min_lat min_lon a b :
  movement min_lat min_lon a b = Ok true <-> delta_at_least min_lat min_lon a b.
Proof.
  unfold movement, delta_at_least. split.
  - intros Hm. inv_bind Hm. inv_bind Hm. inv_bind Hm. inv_bind Hm.
    injection Hm as Hb. apply orb_true_iff in Hb.
    exists a0, a1, a2, a3. repeat (split; [assumption|]). assumption.
  - intros (a0 & b0 & a1 & b1 & -> & -> & -> & -> & Hb); simpl.
    f_equal. by apply orb_true_iff.
Qed.

(** The pairs of the loop are the rows at positions (1, 2), (2, 3), ... *)
Lemma zip_removelast {A B} (l : list A) (m : list B) :
  length m <= pred (length l) -> zip (removelast l) m = zip l m.
Proof.
  revert m; induction l as [|a l IH]; intros m Hlen; [done|].
  destruct l as [|b l].
  - destruct m; [done | simpl in Hlen; lia].
  - destruct m as [|y m]; [done|].
    change (removelast (a :: b :: l)) with (a :: removelast (b :: l)).
    simpl. f_equal. apply IH. simpl in *; lia.
Qed.

Lemma loop_pairs (data : list GpsRow) :
  zip (slice_1_m1 data) (drop 2 data) = zip (tail data) (drop 2 data).
Proof.
  unfold slice_1_m1. apply zip_removelast.
  rewrite length_drop. destruct data; simpl; lia.
Qed.

Lemma loop_pairs_lookup (data : list GpsRow) k p c :
  zip (slice_1_m1 data) (drop 2 data) !! k = Some (p, c)
  <-> data !! S k = Some p /\ data !! S (S k) = Some c.
Proof.
  rewrite loop_pairs, lookup_zip_with_Some.
  rewrite lookup_tail, lookup_drop. simpl. split.
  - intros (x & y & Heq & Hx & Hy). inversion Heq; subst. done.
  - intros [Hp Hc]. eauto.
Qed.

Lemma loop_pairs_elem (data : list GpsRow) p c :
  (p, c) ∈ zip (slice_1_m1 data) (drop 2 data)
  <-> exists i, consecutive_at data i p c.
Proof.
  rewrite list_elem_of_lookup. unfold consecutive_at. split.
  - intros [k Hk]. apply loop_pairs_lookup in Hk as [Hp Hc].
    exists (S k). split; [lia | done].
  - intros (i & Hi & Hp & Hc). destruct i as [|k]; [lia|].
    exists k. by apply loop_pairs_lookup.
Qed.

(** The four ways one turn of the loop can end without an exception. *)
Lemma reduse_step_Ok data_moving previous current out :
  reduse_step data_moving (previous, current) = Ok out ->
  (movement MIN_LAT_MOV MIN_LON_MOV previous current = Ok false /\
   out = data_moving) \/
  (movement MIN_LAT_MOV MIN_LON_MOV previous current = Ok true /\
   data_moving = [] /\ out = [current]) \/
  (movement MIN_LAT_MOV MIN_LON_MOV previous current = Ok true /\
   exists anchor, last data_moving = Some anchor /\
     ((movement MIN_LAT_SAMPLE MIN_LON_SAMPLE anchor current = Ok true /\
       out = data_moving ++ [current]) \/
      (movement MIN_LAT_SAMPLE MIN_LON_SAMPLE anchor current = Ok false /\
       out = data_moving))).
Proof.
  unfold reduse_step. intros Hs. inv_bind Hs. destruct a.
  - right. destruct data_moving as [|r rows] eqn:Hdm.
    + left. simpl in Hs. by inversion Hs.
    + right. split; [done|]. rewrite <- Hdm in *.
      assert ((length data_moving =? 0) = false) as Hlen
        by (subst; apply Nat.eqb_neq; simpl; lia).
      rewrite Hlen in Hs. inv_bind Hs.
      destruct (last data_moving) as [anchor|]; [|discriminate].
      inversion Ha0; subst a. exists anchor. split; [done|].
      inv_bind Hs. destruct a; inversion Hs; subst out; eauto.
  - left. by inversion Hs.
Qed.

(** What is emitted is appended: rows are never removed or reordered, and
    each new row is the [current] of a pair. *)
Lemma reduse_loop_kept pairs data_moving out :
  foldM reduse_step data_moving pairs = Ok out ->
  exists kept, out = data_moving ++ kept /\ kept `sublist_of` pairs.*2.
Proof.
  revert data_moving; induction pairs as [|[p c] pairs IH];
    intros data_moving Hf; simpl in Hf.
  - inversion Hf. exists []. by rewrite app_nil_r.
  - inv_bind Hf. destruct (IH _ Hf) as (kept & -> & Hsub).
    apply reduse_step_Ok in Ha
      as [[_ ->]|[(_ & -> & ->)|(_ & anchor & _ & [[_ ->]|[_ ->]])]].
    + exists kept. split; [done | by apply sublist_cons].
    + exists (c :: kept). split; [done | by apply sublist_skip].
    + exists (c :: kept). rewrite <- app_assoc.
      split; [done | by apply sublist_skip].
    + exists kept. split; [done | by apply sublist_cons].
Qed.

(** Every emitted row is the second row of a pair that moved. *)
Lemma reduse_loop_origin pairs data_moving out r :
  foldM reduse_step data_moving pairs = Ok out -> r ∈ out ->
  r ∈ data_moving \/
  exists p, (p, r) ∈ pairs /\ movement MIN_LAT_MOV MIN_LON_MOV p r = Ok true.
Proof.
  revert data_moving; induction pairs as [|[p c] pairs IH];
    intros data_moving Hf Hr; simpl in Hf.
  - inversion Hf; subst. by left.
  - inv_bind Hf. destruct (IH _ Hf Hr) as [Hin|(q & Hq & Hmov)].
    + apply reduse_step_Ok in Ha
        as [[_ ->]|[(Hm & -> & ->)|(Hm & anchor & _ & [[_ ->]|[_ ->]])]].
      * by left.
      * apply list_elem_of_singleton in Hin as ->. right. exists p.
        split; [left | done].
      * apply elem_of_app in Hin as [Hin|Hin]; [by left|].
        apply list_elem_of_singleton in Hin as ->. right. exists p.
        split; [left | done].
      * by left.
    + right. exists q. split; [by right | done].
Qed.

Lemma sampled_chain_snoc rows anchor current :
  sampled_chain rows -> last rows = Some anchor ->
  movement MIN_LAT_SAMPLE MIN_LON_SAMPLE anchor current = Ok true ->
  sampled_chain (rows ++ [current]).
Proof.
  intros Hch Hlast Hmov j a b Ha Hb.
  assert (j < length rows) as Hj.
  { apply lookup_lt_Some in Hb. rewrite length_app in Hb. simpl in Hb. lia. }
  rewrite lookup_app_l in Ha by done.
  destruct (decide (S j < length rows)) as [Hlt|Hge].
  - rewrite lookup_app_l in Hb by done. eauto.
  - rewrite lookup_app_r in Hb by lia.
    replace (S j - length rows) with 0 in Hb by lia.
    inversion Hb; subst b.
    rewrite last_lookup in Hlast.
    replace (Init.Nat.pred (length rows)) with j in Hlast by lia.
    congruence.
Qed.

Lemma reduse_loop_chain pairs data_moving out :
  foldM reduse_step data_moving pairs = Ok out ->
  sampled_chain data_moving -> sampled_chain out.
Proof.
  revert data_moving; induction pairs as [|[p c] pairs IH];
    intros data_moving Hf Hch; simpl in Hf.
  - by inversion Hf; subst.
  - inv_bind Hf. apply (IH _ Hf).
    apply reduse_step_Ok in Ha
      as [[_ ->]|[(_ & -> & ->)|(_ & anchor & Hl & [[Hs ->]|[_ ->]])]];
      [done | | by eapply sampled_chain_snoc | done].
    intros [|j] a b Ha Hb; simpl in *; discriminate.
Qed.

(** Until a pair moves nothing is emitted; the first pair that moves puts
    its second row at the head of the output. *)
Lemma reduse_loop_still pairs :
  (forall p c, (p, c) ∈ pairs ->
     movement MIN_LAT_MOV MIN_LON_MOV p c = Ok false) ->
  foldM reduse_step [] pairs = Ok [].
Proof.
  induction pairs as [|[p c] pairs IH]; intros Hstill; simpl; [done|].
  rewrite (Hstill p c) by left. simpl. apply IH.
  intros p' c' Hin. apply Hstill. by right.
Qed.

Lemma reduse_loop_first pairs1 p c pairs2 out :
  (forall q d, (q, d) ∈ pairs1 ->
     movement MIN_LAT_MOV MIN_LON_MOV q d = Ok false) ->
  movement MIN_LAT_MOV MIN_LON_MOV p c = Ok true ->
  foldM reduse_step [] (pairs1 ++ (p, c) :: pairs2) = Ok out ->
  head out = Some c.
Proof.
  intros Hstill Hmov Hf. rewrite foldM_app, reduse_loop_still in Hf by done.
  simpl in Hf. rewrite Hmov in Hf. simpl in Hf.
  apply reduse_loop_kept in Hf as (kept & -> & _). done.
Qed.

(** Every pair of a loop that ends without exception was tested. *)
Lemma reduse_loop_tested pairs data_moving out p c :
  foldM reduse_step data_moving pairs = Ok out -> (p, c) ∈ pairs ->
  exists b, movement MIN_LAT_MOV MIN_LON_MOV p c = Ok b.
Proof.
  revert data_moving; induction pairs as [|[q d] pairs IH];
    intros data_moving Hf Hin; [by apply elem_of_nil in Hin|].
  simpl in Hf. inv_bind Hf.
  apply elem_of_cons in Hin as [Heq|Hin]; [|eauto].
  inversion Heq; subst q d. unfold reduse_step in Ha.
  destruct (movement MIN_LAT_MOV MIN_LON_MOV p c); [eauto | discriminate].
Qed.

(** A pair that moved leaves the output non-empty. *)
Lemma reduse_loop_nonempty pairs data_moving out p c :
  foldM reduse_step data_moving pairs = Ok out -> (p, c) ∈ pairs ->
  movement MIN_LAT_MOV MIN_LON_MOV p c = Ok true -> out <> [].
Proof.
  revert data_moving; induction pairs as [|[q d] pairs IH];
    intros data_moving Hf Hin Hmov; [by apply elem_of_nil in Hin|].
  simpl in Hf. inv_bind Hf.
  apply elem_of_cons in Hin as [Heq|Hin]; [|eauto].
  inversion Heq; subst q d.
  apply reduse_loop_kept in Hf as (kept & -> & _).
  apply reduse_step_Ok in Ha
    as [[Hm _]|[(_ & _ & ->)|(_ & anchor & Hl & [[_ ->]|[_ ->]])]].
  - congruence.
  - done.
  - by destruct data_moving.
  - by destruct data_moving.
Qed.

(** The reducer returns when the coordinates it reads are numbers; the
    first row is not read. *)
Lemma movement_Ok min_lat min_lon a b :
  numeric_row a -> numeric_row b ->
  exists moved, movement min_lat min_lon a b = Ok moved.
Proof.
  intros (a0 & a1 & Ha0 & Ha1) (b0 & b1 & Hb0 & Hb1).
  unfold movement. rewrite Ha0, Hb0, Ha1, Hb1. simpl. eauto.
Qed.

Lemma reduse_loop_total pairs data_moving :
  Forall numeric_row data_moving ->
  Forall (fun pair => numeric_row (fst pair) /\ numeric_row (snd pair)) pairs ->
  exists out, foldM reduse_step data_moving pairs = Ok out.
Proof.
  intros Hacc Hpairs. revert data_moving Hacc.
  induction Hpairs as [|[p c] pairs [Hp Hc] _ IH]; intros data_moving Hacc;
    simpl; [eauto|].
  assert (Forall numeric_row (data_moving ++ [c])) as Hacc'
    by (apply Forall_app; split; [done | by constructor]).
  destruct (movement_Ok MIN_LAT_MOV MIN_LON_MOV p c Hp Hc) as [[] ->];
    simpl; [|by apply IH].
  destruct data_moving as [|r rows] eqn:Hdm; [by apply IH|].
  rewrite <- Hdm in *.
  replace (length data_moving =? 0) with false
    by (subst; symmetry; by apply Nat.eqb_neq).
  destruct (last data_moving) as [anchor|] eqn:Hlast;
    [|apply last_None in Hlast; congruence].
  simpl.
  assert (numeric_row anchor) as Hanchor.
  { rewrite Forall_forall in Hacc. apply Hacc.
    rewrite last_lookup in Hlast. apply list_elem_of_lookup. eauto. }
  destruct (movement_Ok MIN_LAT_SAMPLE MIN_LON_SAMPLE anchor c Hanchor Hc)
    as [[] ->]; simpl; by apply IH.
Qed.

Lemma reduse_rows_total data :
  Forall numeric_row (tail data) -> exists out, reduse_rows data = Ok out.
Proof.
  intros Hnum. unfold reduse_rows. apply reduse_loop_total; [constructor|].
  rewrite loop_pairs. apply Forall_forall. intros [p c] Hin.
  apply list_elem_of_lookup in Hin as [k Hk].
  apply lookup_zip_with_Some in Hk as (x & y & Heq & Hx & Hy).
  injection Heq as <- <-. rewrite Forall_forall in Hnum. simpl. split.
  - apply Hnum, list_elem_of_lookup. eauto.
  - apply Hnum, list_elem_of_lookup. exists (S k).
    rewrite lookup_tail. by rewrite lookup_drop in Hy.
Qed.

Lemma sampled_chain_tail x rows : sampled_chain (x :: rows) -> sampled_chain rows.
Proof. intros Hch j a b Ha Hb. apply (Hch (S j)); done. Qed.

Section Thresholds.
(** The sampling thresholds are not below the stillness thresholds. *)
Hypothesis lat_thresholds :
  forall x, fge x MIN_LAT_SAMPLE = true -> fge x MIN_LAT_MOV = true.
Hypothesis lon_thresholds :
  forall x, fge x MIN_LON_SAMPLE = true -> fge x MIN_LON_MOV = true.

Lemma sampled_is_moving a b :
  movement MIN_LAT_SAMPLE MIN_LON_SAMPLE a b = Ok true ->
  movement MIN_LAT_MOV MIN_LON_MOV a b = Ok true.
Proof.
  rewrite !movement_true.
  intros (a0 & b0 & a1 & b1 & Ha0 & Hb0 & Ha1 & Hb1 & [Hlat|Hlon]);
    exists a0, b0, a1, b1; repeat (split; [assumption|]).
  - left. by apply lat_thresholds.
  - right. by apply lon_thresholds.
Qed.

(** On a chain, once its first row is emitted, every later row follows. *)
Lemma reduse_loop_on_chain rows data_moving x :
  sampled_chain (x :: rows) ->
  foldM reduse_step (data_moving ++ [x]) (zip (x :: rows) rows)
  = Ok (data_moving ++ x :: rows).
Proof.
  revert data_moving x; induction rows as [|y rows IH];
    intros data_moving x Hch; [done|].
  assert (movement MIN_LAT_SAMPLE MIN_LON_SAMPLE x y = Ok true) as Hs
    by (by apply (Hch 0)).
  change (zip (x :: y :: rows) (y :: rows))
    with ((x, y) :: zip (y :: rows) rows).
  remember (zip (y :: rows) rows) as pairs eqn:Hpairs.
  simpl. rewrite (sampled_is_moving _ _ Hs). simpl.
  rewrite length_app, Nat.add_comm. simpl. rewrite last_snoc. simpl.
  rewrite Hs. simpl. subst pairs.
  rewrite (IH (data_moving ++ [x]) y) by (by eapply sampled_chain_tail).
  by rewrite <- app_assoc.
Qed.

Lemma reduse_rows_on_chain rows :
  sampled_chain rows -> reduse_rows rows = Ok (drop 2 rows).
Proof.
  intros Hch. unfold reduse_rows. rewrite loop_pairs.
  destruct rows as [|a [|b [|c rows]]]; [done..|].
  change (zip (tail (a :: b :: c :: rows)) (drop 2 (a :: b :: c :: rows)))
    with ((b, c) :: zip (c :: rows) rows).
  assert (movement MIN_LAT_SAMPLE MIN_LON_SAMPLE b c = Ok true) as Hs
    by (by apply (Hch 1)).
  remember (zip (c :: rows) rows) as pairs eqn:Hpairs.
  simpl. rewrite (sampled_is_moving _ _ Hs). simpl. subst pairs.
  apply (reduse_loop_on_chain rows [] c).
  by do 2 eapply sampled_chain_tail.
Qed.

End Thresholds.

End Reducer.

Section ReducerClaims.
Context {py_float : PyFloat}.

(** C5 (amended): the reducer is a two-stage filter over consecutive rows.
    Every emitted row differs from the raw row just before it by at least
    the stillness threshold (0.001) in latitude or longitude; every emitted
    row but the first differs from the row emitted before it by at least
    the sampling threshold (0.01) in latitude or longitude; and the first
    row that moved with respect to its predecessor is emitted whatever its
    distance to anything else: it is the head of the output. *)
Theorem reduse_two_stage_filter (data out : list GpsRow) :
  reduse_rows data = Ok out ->
  (forall r, r ∈ out ->
     exists i p, consecutive_at data i p r /\
                 delta_at_least MIN_LAT_MOV MIN_LON_MOV p r) /\
  (forall j a b, out !! j = Some a -> out !! S j = Some b ->
     delta_at_least MIN_LAT_SAMPLE MIN_LON_SAMPLE a b) /\
  (forall i p c,
     consecutive_at data i p c ->
     delta_at_least MIN_LAT_MOV MIN_LON_MOV p c ->
     (forall k q d, k < i -> consecutive_at data k q d ->
        ~ delta_at_least MIN_LAT_MOV MIN_LON_MOV q d) ->
     head out = Some c).
Proof.
  unfold reduse_rows. intros Hred. split; [|split].
  - intros r Hr.
    destruct (reduse_loop_origin _ _ _ _ Hred Hr) as [Hnil|(p & Hin & Hmov)];
      [by apply elem_of_nil in Hnil|].
    apply loop_pairs_elem in Hin as [i Hi]. exists i, p.
    split; [done | by apply movement_true].
  - intros j a b Ha Hb. apply movement_true.
    apply (reduse_loop_chain _ _ _ Hred) with j; [|done..].
    intros [|k] x y Hx Hy; discriminate.
  - intros i p c (Hi & Hp & Hc) Hmov Hfirst.
    destruct i as [|k]; [lia|].
    assert (zip (slice_1_m1 data) (drop 2 data) !! k = Some (p, c)) as Hk
      by (by apply loop_pairs_lookup).
    rewrite <- (take_drop_middle _ _ _ Hk) in Hred.
    eapply reduse_loop_first; [| by apply movement_true | exact Hred].
    intros q d Hin.
    assert ((q, d) ∈ zip (slice_1_m1 data) (drop 2 data)) as Hin'.
    { rewrite <- (take_drop_middle _ _ _ Hk). apply elem_of_app. by left. }
    rewrite (take_drop_middle _ _ _ Hk) in Hred.
    destruct (reduse_loop_tested _ _ _ _ _ Hred Hin') as [[] Hb]; [|done].
    exfalso. apply list_elem_of_lookup in Hin as [n Hn].
    apply lookup_take_Some in Hn as [Hn Hlt].
    apply loop_pairs_lookup in Hn as [Hq Hd].
    apply (Hfirst (S n) q d); [lia | | by apply movement_true].
    split; [lia | done].
Qed.

(** C7 (amended): a raw trace of fewer than 3 rows reduces to the empty
    trace, and the reduced trace is non-empty exactly when some row, from
    the third on, differs from the row before it by at least the stillness
    threshold in latitude or longitude. *)
Theorem reduse_nonempty_iff_moved (data out : list GpsRow) :
  reduse_rows data = Ok out ->
  (length data < 3 -> out = []) /\
  (out <> [] <->
   exists i p c, consecutive_at data i p c /\
                 delta_at_least MIN_LAT_MOV MIN_LON_MOV p c).
Proof.
  intros Hred. split; [|split].
  - intros Hlen. unfold reduse_rows in Hred.
    rewrite drop_ge, zip_with_nil_r in Hred by lia. by inversion Hred.
  - intros Hne. destruct out as [|r out]; [done|].
    destruct (reduse_loop_origin _ _ _ r Hred) as [Hnil|(p & Hin & Hmov)];
      [left | by apply elem_of_nil in Hnil |].
    apply loop_pairs_elem in Hin as [i Hi]. exists i, p, r.
    split; [done | by apply movement_true].
  - intros (i & p & c & Hi & Hmov).
    eapply reduse_loop_nonempty; [exact Hred | | by apply movement_true].
    apply loop_pairs_elem. eauto.
Qed.

(** C6 (amended): reducing a reduced trace (the same three fields, the
    same thresholds) returns it without its first two rows and with the
    others unchanged; so a reduced trace is a fixed point of the reduction
    only when it is empty. *)
Theorem reduse_again_drops_two (data out : list GpsRow) :
  (forall x, fge x MIN_LAT_SAMPLE = true -> fge x MIN_LAT_MOV = true) ->
  (forall x, fge x MIN_LON_SAMPLE = true -> fge x MIN_LON_MOV = true) ->
  reduse_rows data = Ok out ->
  reduse_rows out = Ok (drop 2 out) /\
  (reduse_rows out = Ok out <-> out = []).
Proof.
  intros Hlat Hlon Hred.
  assert (sampled_chain out) as Hch.
  { apply (reduse_loop_chain _ _ _ Hred).
    intros [|k] x y Hx Hy; discriminate. }
  rewrite (reduse_rows_on_chain Hlat Hlon out Hch). split; [done|]. split.
  - intros Heq. injection Heq as Heq.
    apply (f_equal length) in Heq. rewrite length_drop in Heq.
    destruct out as [|r out]; [done | simpl in Heq; lia].
  - by intros ->.
Qed.

(** On the file itself the second run does not get that far: the rows
    written have three fields, and the reducer reads the ninth. *)
Lemma reduse_dataset_again_raises (rows out : list (list string)) :
  reduse_dataset rows = Ok out -> out <> [] ->
  reduse_dataset out = Raise IndexError.
Proof.
  unfold reduse_dataset. intros Hred Hne.
  inv_bind Hred. inv_bind Hred. injection Hred as <-.
  destruct a0 as [|r kept]; [done|]. reflexivity.
Qed.



End ReducerClaims.

(** ** The trace reducer on concrete traces *)

Lemma Q_thresholds (x : Q) :
  @fge QFloat x (@MIN_LAT_SAMPLE QFloat) = true ->
  @fge QFloat x (@MIN_LAT_MOV QFloat) = true.
Proof.
  simpl. rewrite !Qle_bool_iff. intros Hx.
  apply Qle_trans with (Qmake 1 100); [|exact Hx].
  unfold Qle; simpl; lia.
Qed.

Lemma reduse_two_stage_filter_witness :
  @reduse_rows QFloat moving_trace
  = Ok [mkGpsRow "1" "0" "2"; mkGpsRow "2" "0" "4"] /\
  forall j a b,
    [mkGpsRow "1" "0" "2"; mkGpsRow "2" "0" "4"] !! j = Some a ->
    [mkGpsRow "1" "0" "2"; mkGpsRow "2" "0" "4"] !! S j = Some b ->
    @delta_at_least QFloat MIN_LAT_SAMPLE MIN_LON_SAMPLE a b.
Proof.
  split; [reflexivity|].
  apply (@reduse_two_stage_filter QFloat moving_trace). reflexivity.
Defined.

(** C5 as stated fails: the third row of [threshold_trace] is emitted, and
    neither its latitude nor its longitude differs from the row before it
    by more than 0.001. *)
Lemma reduse_emits_at_threshold :
  @reduse_rows QFloat threshold_trace = Ok [mkGpsRow "0.001" "0" "2"] /\
  consecutive_at threshold_trace 1
    (mkGpsRow "0" "0" "1") (mkGpsRow "0.001" "0" "2") /\
  ~ @delta_exceeds QFloat MIN_LAT_MOV MIN_LON_MOV
      (mkGpsRow "0" "0" "1") (mkGpsRow "0.001" "0" "2").
Proof.
  split; [reflexivity|]. split; [by repeat split|].
  intros (a0 & b0 & a1 & b1 & Ha0 & Hb0 & Ha1 & Hb1 & Hgt).
  vm_compute in Ha0, Hb0, Ha1, Hb1.
  injection Ha0 as <-. injection Hb0 as <-.
  injection Ha1 as <-. injection Hb1 as <-.
  vm_compute in Hgt. by destruct Hgt.
Qed.

Lemma reduse_nonempty_iff_moved_witness :
  @reduse_rows QFloat still_trace = Ok [] /\
  ~ exists i p c, consecutive_at still_trace i p c /\
                  @delta_at_least QFloat MIN_LAT_MOV MIN_LON_MOV p c.
Proof.
  split; [reflexivity|].
  intros Hmoved.
  by apply (proj2 (@reduse_nonempty_iff_moved QFloat still_trace [] eq_refl)).
Defined.

(** C7 as stated fails: [still_trace] has 3 rows and reduces to the empty
    trace. *)
Lemma reduse_standstill_empty :
  3 <= length still_trace /\ @reduse_rows QFloat still_trace = Ok [].
Proof. split; [simpl; lia | reflexivity]. Qed.

Lemma reduse_again_drops_two_witness :
  @reduse_rows QFloat moving_trace
  = Ok [mkGpsRow "1" "0" "2"; mkGpsRow "2" "0" "4"] /\
  @reduse_rows QFloat [mkGpsRow "1" "0" "2"; mkGpsRow "2" "0" "4"] = Ok [].
Proof.
  split; [reflexivity|].
  apply (@reduse_again_drops_two QFloat moving_trace
           [mkGpsRow "1" "0" "2"; mkGpsRow "2" "0" "4"]
           Q_thresholds Q_thresholds eq_refl).
Defined.

(** C6 as stated fails: the reduction of [moving_trace] has two rows, and
    reducing these two rows gives the empty trace; run on the file written,
    the reducer raises [IndexError]. *)
Lemma reduse_not_idempotent :
  @reduse_rows QFloat moving_trace
  = Ok [mkGpsRow "1" "0" "2"; mkGpsRow "2" "0" "4"] /\
  @reduse_rows QFloat [mkGpsRow "1" "0" "2"; mkGpsRow "2" "0" "4"]
  <> Ok [mkGpsRow "1" "0" "2"; mkGpsRow "2" "0" "4"] /\
  @reduse_dataset QFloat
    [raw_row "Latitude" "Longitude" "Time"; raw_row "0" "0" "1";
     raw_row "1" "0" "2"]
  = Ok [["1"; "0"; "2"]%string] /\
  @reduse_dataset QFloat [["1"; "0"; "2"]%string] = Raise IndexError.
Proof. repeat split; try reflexivity. discriminate. Qed.


(** ** The map matcher *)

Section Matcher.
Context {py_float : PyFloat} {geometry_of_network : RoadGeometry}.

(** [add_route_id] is set by the long-edge rule or by the short-edge rule,
    and by nothing else. *)
Lemma add_route_id_rules edge_id previous current :
  add_route_id edge_id previous current = Ok true
  <-> long_edge_rule edge_id previous current \/
      short_edge_rule edge_id previous current.
Proof.
  unfold add_route_id, long_edge_rule, short_edge_rule.
  destruct (overlap_length edge_id previous current) as [overlap|e]; simpl.
  2: { split; [discriminate|].
       intros [(? & ? & _)|(? & ? & ? & _)]; discriminate. }
  destruct (fgt overlap (fmul (segment_length previous current) f_0_8))
    eqn:Hlong.
  { split; [|done]. intros _. left. by exists overlap. }
  destruct (edge_length edge_id) as [len|e]; simpl.
  2: { split; [discriminate|].
       intros [(ov & Hov & Hgt)|(ov & l & _ & Hl & _)]; [|discriminate].
       injection Hov as <-. congruence. }
  destruct (flt len (segment_length previous current)) eqn:Hshort; simpl.
  - split.
    + intros Hacc. injection Hacc as Hacc. right. by exists overlap, len.
    + intros [(ov & Hov & Hgt)|(ov & l & Hov & Hl & _ & Hgt)].
      * injection Hov as <-. congruence.
      * injection Hov as <-. injection Hl as <-. by rewrite Hgt.
  - split; [discriminate|].
    intros [(ov & Hov & Hgt)|(ov & l & Hov & Hl & Hlt & _)].
    + injection Hov as <-. congruence.
    + injection Hl as <-. congruence.
Qed.

(** One candidate: the route is left as it is, or the candidate is
    appended with the timestamp of the segment. *)
Lemma visit_edge_appends previous current timestamp route edge_id :
  visit_edge previous current timestamp route edge_id
  = Ok (route ++ [(edge_id, timestamp)])
  <-> add_route_id edge_id previous current = Ok true /\
      edge_id ∉ map fst (last_entries NUM_RETURN_JOURNEY route).
Proof.
  unfold visit_edge.
  assert (route <> route ++ [(edge_id, timestamp)]) as Hne.
  { intros Heq. apply (f_equal length) in Heq.
    rewrite length_app in Heq. simpl in Heq. lia. }
  destruct (add_route_id edge_id previous current) as [[]|e]; simpl.
  - case_bool_decide as Hin.
    + split; [intros Heq; by injection Heq | by intros [_ ?]].
    + done.
  - split; [intros Heq; by injection Heq | intros [? _]; discriminate].
  - split; [discriminate | intros [? _]; discriminate].
Qed.

Lemma visit_edge_cases previous current timestamp route edge_id out :
  visit_edge previous current timestamp route edge_id = Ok out ->
  out = route \/
  (out = route ++ [(edge_id, timestamp)] /\
   add_route_id edge_id previous current = Ok true /\
   edge_id ∉ map fst (last_entries NUM_RETURN_JOURNEY route)).
Proof.
  unfold visit_edge. intros Hv. inv_bind Hv. destruct a.
  - case_bool_decide as Hin; injection Hv as <-; [by left | by right].
  - injection Hv as <-. by left.
Qed.

(** A candidate that is not accepted leaves the route as it is, and an
    exception of the geometry leaves the loop. *)
Lemma visit_edge_rejected previous current timestamp route edge_id :
  add_route_id edge_id previous current = Ok false ->
  visit_edge previous current timestamp route edge_id = Ok route.
Proof. unfold visit_edge. by intros ->. Qed.

Lemma visit_edge_raises previous current timestamp route edge_id e :
  add_route_id edge_id previous current = Raise e ->
  visit_edge previous current timestamp route edge_id = Raise e.
Proof. unfold visit_edge. by intros ->. Qed.

Lemma last_entries_subseteq {A} n (route : list A) x :
  x ∈ last_entries n route -> x ∈ route.
Proof.
  unfold last_entries. intros Hin.
  rewrite <- (take_drop (length route - n) route). apply elem_of_app. by right.
Qed.

(** An accepted candidate is in the route once it has been visited. *)
Lemma visit_edge_accepted previous current timestamp route edge_id out :
  visit_edge previous current timestamp route edge_id = Ok out ->
  add_route_id edge_id previous current = Ok true ->
  edge_id ∈ map fst out.
Proof.
  unfold visit_edge. intros Hv Hacc. rewrite Hacc in Hv. simpl in Hv.
  case_bool_decide as Hin; injection Hv as <-.
  - apply list_elem_of_fmap in Hin as (entry & -> & Hin).
    apply list_elem_of_fmap. exists entry. split; [done|].
    by apply last_entries_subseteq in Hin.
  - rewrite map_app. apply elem_of_app. right. simpl. left.
Qed.

(** The entries a list of candidates adds to the route. *)
Lemma visit_edges_added previous current timestamp edges route out :
  foldM (visit_edge previous current timestamp) route edges = Ok out ->
  exists added,
    out = route ++ added /\
    Forall (fun entry => fst entry ∈ edges /\
                         add_route_id (fst entry) previous current = Ok true /\
                         snd entry = timestamp) added.
Proof.
  revert route; induction edges as [|e edges IH]; intros route Hf;
    simpl in Hf.
  - injection Hf as <-. exists []. by rewrite app_nil_r.
  - inv_bind Hf. destruct (IH _ Hf) as (added & -> & Hall).
    assert (Forall (fun entry => fst entry ∈ e :: edges /\
                       add_route_id (fst entry) previous current = Ok true /\
                       snd entry = timestamp) added) as Hall'.
    { eapply Forall_impl; [exact Hall|].
      intros entry (? & ? & ?). split; [by right | done]. }
    destruct (visit_edge_cases _ _ _ _ _ _ Ha) as [->|(-> & Hacc & _)].
    + by exists added.
    + exists ((e, timestamp) :: added). rewrite <- app_assoc.
      split; [done|]. constructor; [|done]. split; [left | done].
Qed.

Lemma visit_edges_accepted previous current timestamp edges route out edge_id :
  foldM (visit_edge previous current timestamp) route edges = Ok out ->
  edge_id ∈ edges ->
  add_route_id edge_id previous current = Ok true ->
  edge_id ∈ map fst out.
Proof.
  revert route; induction edges as [|e edges IH]; intros route Hf Hin Hacc;
    [by apply elem_of_nil in Hin|].
  simpl in Hf. inv_bind Hf.
  apply elem_of_cons in Hin as [->|Hin]; [|by eapply IH].
  apply (visit_edge_accepted _ _ _ _ _ _ Ha) in Hacc.
  destruct (visit_edges_added _ _ _ _ _ _ Hf) as (added & -> & _).
  rewrite map_app. apply elem_of_app. by left.
Qed.

(** Candidates that are all rejected leave the route as it is. *)
Lemma visit_edges_rejected previous current timestamp edges route :
  (forall edge_id, edge_id ∈ edges ->
     add_route_id edge_id previous current = Ok false) ->
  foldM (visit_edge previous current timestamp) route edges = Ok route.
Proof.
  induction edges as [|e edges IH]; intros Hrej; simpl; [done|].
  rewrite visit_edge_rejected by (apply Hrej; left). simpl.
  apply IH. intros edge_id Hin. apply Hrej. by right.
Qed.

(** One exception among the candidates, and the loop raises. *)
Lemma visit_edges_raise previous current timestamp edges route edge_id e :
  edge_id ∈ edges ->
  add_route_id edge_id previous current = Raise e ->
  exists e', foldM (visit_edge previous current timestamp) route edges
             = Raise e'.
Proof.
  revert route; induction edges as [|x edges IH]; intros route Hin Hraise;
    [by apply elem_of_nil in Hin|].
  simpl. apply elem_of_cons in Hin as [->|Hin].
  - rewrite (visit_edge_raises _ _ _ _ _ _ Hraise). simpl. eauto.
  - destruct (visit_edge previous current timestamp route x) as [route'|e'];
      simpl; eauto.
Qed.

(** The entries a list of segments adds to the route. *)
Lemma match_segments_added items route out :
  foldM match_segment route items = Ok out ->
  exists added,
    out = route ++ added /\
    Forall (fun entry => exists previous current,
              (previous, current, snd entry) ∈ items /\
              candidate (fst entry) previous current /\
              add_route_id (fst entry) previous current = Ok true) added.
Proof.
  revert route; induction items as [|[[p c] t] items IH]; intros route Hf;
    simpl in Hf.
  - injection Hf as <-. exists []. by rewrite app_nil_r.
  - inv_bind Hf. inv_bind Ha. rename a0 into edges.
    destruct (visit_edges_added _ _ _ _ _ _ Ha) as (added1 & -> & Hall1).
    destruct (IH _ Hf) as (added2 & -> & Hall2).
    exists (added1 ++ added2). rewrite <- app_assoc. split; [done|].
    apply Forall_app. split.
    + eapply Forall_impl; [exact Hall1|].
      intros entry (Hin & Hacc & <-). exists p, c.
      split; [left|]. split; [by exists edges | done].
    + eapply Forall_impl; [exact Hall2|].
      intros entry (p' & c' & Hin & Hrest). exists p', c'.
      split; [by right | done].
Qed.

(** Suppression is kept by every append the matcher makes. *)
Lemma suppressed_nil k : suppressed (py_float := py_float) k [].
Proof. intros i j e _ Hi. discriminate. Qed.

Lemma suppressed_snoc k route edge_id timestamp :
  suppressed k route ->
  edge_id ∉ map fst (last_entries k route) ->
  suppressed k (route ++ [(edge_id, timestamp)]).
Proof.
  intros Hsup Hnew i j e Hij Hi Hj.
  assert (j < length (route ++ [(edge_id, timestamp)])) as Hjlen.
  { destruct ((route ++ [(edge_id, timestamp)]) !! j) eqn:Hl; [|done].
    by apply lookup_lt_Some in Hl. }
  rewrite length_app in Hjlen. simpl in Hjlen.
  rewrite lookup_app_l in Hi by lia.
  destruct (decide (j < length route)) as [Hlt|Hge].
  - rewrite lookup_app_l in Hj by done. eauto.
  - rewrite lookup_app_r in Hj by lia.
    replace (j - length route) with 0 in Hj by lia.
    injection Hj as <-.
    destruct (decide (i + k < j)) as [|Hnear]; [done|].
    exfalso. apply Hnew. unfold last_entries.
    destruct (route !! i) as [entry|] eqn:Hentry; [|done].
    injection Hi as <-.
    apply list_elem_of_fmap. exists entry. split; [done|].
    apply list_elem_of_lookup. exists (i - (length route - k)).
    rewrite lookup_drop. rewrite <- Hentry. f_equal. lia.
Qed.

Lemma visit_edge_suppressed previous current timestamp route edge_id out :
  visit_edge previous current timestamp route edge_id = Ok out ->
  suppressed NUM_RETURN_JOURNEY route ->
  suppressed NUM_RETURN_JOURNEY out.
Proof.
  intros Hv Hsup.
  destruct (visit_edge_cases _ _ _ _ _ _ Hv) as [->|(-> & _ & Hnew)];
    [done | by apply suppressed_snoc].
Qed.

Lemma visit_edges_suppressed previous current timestamp edges route out :
  foldM (visit_edge previous current timestamp) route edges = Ok out ->
  suppressed NUM_RETURN_JOURNEY route ->
  suppressed NUM_RETURN_JOURNEY out.
Proof.
  revert route; induction edges as [|e edges IH]; intros route Hf Hsup;
    simpl in Hf.
  - by injection Hf as <-.
  - inv_bind Hf. apply (IH _ Hf). by eapply visit_edge_suppressed.
Qed.

Lemma match_segments_suppressed items route out :
  foldM match_segment route items = Ok out ->
  suppressed NUM_RETURN_JOURNEY route ->
  suppressed NUM_RETURN_JOURNEY out.
Proof.
  revert route; induction items as [|[[p c] t] items IH]; intros route Hf Hsup;
    simpl in Hf.
  - by injection Hf as <-.
  - inv_bind Hf. inv_bind Ha. apply (IH _ Hf).
    by eapply visit_edges_suppressed.
Qed.

Lemma find_route_suppressed rows route :
  find_route rows = Ok route -> suppressed NUM_RETURN_JOURNEY route.
Proof.
  unfold find_route. intros Hf. do 4 inv_bind Hf.
  eapply match_segments_suppressed; [exact Hf | apply suppressed_nil].
Qed.

Lemma LineString_Ok points coords : LineString points = Ok coords -> coords = points.
Proof.
  unfold LineString. destruct points as [|p [|q points]]; try congruence.
  destruct empty_linestring_ok; congruence.
Qed.

(** The items of the loop over the segments are the segments of the
    trace: item [k] joins the points of rows [k] and [k + 1], with the
    timestamp of row [k]. *)
Lemma segment_of_item data points timestamps k previous current timestamp :
  mapM (fun row => let* x := index row 0 in
                   let* y := index row 1 in Point x y) data = Ok points ->
  mapM (fun row : list (value F) => index row 2) data = Ok timestamps ->
  zip (zip points (tail points)) timestamps !! k
  = Some (previous, current, timestamp) ->
  exists t_current, segment_at data k previous current timestamp t_current.
Proof.
  intros Hpoints Hstamps Hk.
  apply lookup_zip_with_Some in Hk as (pc & t & Hpct & Hpc & Ht).
  injection Hpct as <- <-.
  apply lookup_zip_with_Some in Hpc as (p' & c' & Hpc & Hp & Hc).
  injection Hpc as <- <-. rewrite lookup_tail in Hc.
  destruct (mapM_lookup_inv _ _ _ _ _ Hpoints Hp) as (row_p & Hrp & Hfp).
  destruct (mapM_lookup_inv _ _ _ _ _ Hpoints Hc) as (row_c & Hrc & Hfc).
  destruct (mapM_lookup _ _ _ _ _ Hstamps Hrp) as (t' & Ht' & Hft).
  destruct (mapM_lookup _ _ _ _ _ Hstamps Hrc) as (t_c & _ & Hfc2).
  assert (t' = timestamp) as -> by congruence.
  inv_bind Hfp. inv_bind Hfp. inv_bind Hfc. inv_bind Hfc.
  exists t_c, row_p, row_c.
  split; [done|]. split; [done|].
  split; [exists a, a0; by repeat split; try apply index_Ok|].
  split; [by apply index_Ok|].
  split; [exists a1, a2; by repeat split; try apply index_Ok|].
  by apply index_Ok.
Qed.

Lemma item_of_segment data points timestamps k previous current t t_current :
  mapM (fun row => let* x := index row 0 in
                   let* y := index row 1 in Point x y) data = Ok points ->
  mapM (fun row : list (value F) => index row 2) data = Ok timestamps ->
  segment_at data k previous current t t_current ->
  zip (zip points (tail points)) timestamps !! k = Some (previous, current, t).
Proof.
  intros Hpoints Hstamps (row_p & row_c & Hrp & Hrc & Hp & Htp & Hc & _).
  destruct (mapM_lookup _ _ _ _ _ Hpoints Hrp) as (p & Hpk & Hfp).
  destruct (mapM_lookup _ _ _ _ _ Hpoints Hrc) as (c & Hck & Hfc).
  destruct (mapM_lookup _ _ _ _ _ Hstamps Hrp) as (t' & Htk & Hft).
  destruct Hp as (x & y & Hx & Hy & Hxy).
  destruct Hc as (x' & y' & Hx' & Hy' & Hxy').
  unfold index in Hfp, Hfc, Hft.
  rewrite Hx, Hy in Hfp. rewrite Hx', Hy' in Hfc. rewrite Htp in Hft.
  simpl in Hfp, Hfc. injection Hft as <-.
  assert (p = previous) as -> by congruence.
  assert (c = current) as -> by congruence.
  apply lookup_zip_with_Some. exists (previous, current), t.
  split; [done|]. split; [|done].
  apply lookup_zip_with_Some. exists previous, current.
  split; [done|]. split; [done|]. by rewrite lookup_tail.
Qed.

(** Where a route entry comes from: a segment of the trace, whose candidate
    it is, and whose first row gives the timestamp. *)
Lemma find_route_entries rows route :
  find_route rows = Ok route ->
  exists data, read_nonnumeric rows = Ok data /\
    forall entry, entry ∈ route ->
      exists k previous current t_current,
        segment_at data k previous current (snd entry) t_current /\
        candidate (fst entry) previous current /\
        add_route_id (fst entry) previous current = Ok true.
Proof.
  unfold find_route. intros Hf.
  inv_bind Hf. rename a into data, Ha into Hdata.
  inv_bind Hf. rename a into points, Ha into Hpoints.
  inv_bind Hf. rename a into coords, Ha into Hcoords.
  inv_bind Hf. rename a into timestamps, Ha into Hstamps.
  apply LineString_Ok in Hcoords as ->.
  exists data. split; [done|]. intros entry Hin.
  destruct (match_segments_added _ _ _ Hf) as (added & -> & Hall).
  simpl in Hin. rewrite Forall_forall in Hall.
  destruct (Hall entry Hin) as (p & c & Hitem & Hcand & Hacc).
  apply list_elem_of_lookup in Hitem as [k Hk].
  destruct (segment_of_item _ _ _ _ _ _ _ Hpoints Hstamps Hk) as [t_c Hseg].
  by exists k, p, c, t_c.
Qed.

(** The matcher reads a trace of two or more records it can use, and goes
    on to the loop over the segments. *)
Lemma find_route_loop rows :
  1 < length rows -> Forall numeric_record rows ->
  exists data points timestamps,
    read_nonnumeric rows = Ok data /\
    mapM (fun row => let* x := index row 0 in
                     let* y := index row 1 in Point x y) data = Ok points /\
    mapM (fun row : list (value F) => index row 2) data = Ok timestamps /\
    find_route rows
    = foldM match_segment [] (zip (zip points (tail points)) timestamps).
Proof.
  intros Hlen Hrows. unfold find_route, read_nonnumeric.
  rewrite Forall_forall in Hrows.
  destruct (mapM_Ok_all (mapM read_cell) rows) as [data Hdata].
  { intros row Hrow. destruct (Hrows row Hrow) as (fields & _ & Hf & _).
    eauto. }
  rewrite Hdata. simpl.
  assert (forall fields, fields ∈ data ->
            2 < length fields /\ exists point, point_at fields point)
    as Hwide.
  { intros fields Hin. apply list_elem_of_lookup in Hin as [i Hi].
    destruct (mapM_lookup_inv _ _ _ _ _ Hdata Hi) as (row & Hrow & Hf).
    destruct (Hrows row) as (fields' & point & Hf' & Hlong & Hpoint).
    { apply list_elem_of_lookup. eauto. }
    assert (fields' = fields) as -> by congruence. eauto. }
  destruct (mapM_Ok_all
              (fun row : list (value F) => let* x := index row 0 in
                                       let* y := index row 1 in Point x y)
              data) as [points Hpoints].
  { intros fields Hin. apply Hwide in Hin as [_ (point & x & y & Hx & Hy & Hxy)].
    unfold index. rewrite Hx, Hy. simpl. eauto. }
  rewrite Hpoints. simpl.
  assert (LineString points = Ok points) as ->.
  { apply mapM_length in Hpoints. apply mapM_length in Hdata.
    destruct points as [|p [|q points]]; simpl in *; [lia | lia | done]. }
  simpl.
  destruct (mapM_Ok_all (fun row : list (value F) => index row 2) data)
    as [timestamps Hstamps].
  { intros fields Hin. apply Hwide in Hin as [Hlong _]. unfold index.
    destruct (lookup_lt_is_Some_2 fields 2) as [t ->]; [lia|]. eauto. }
  rewrite Hstamps. simpl. by exists data, points, timestamps.
Qed.

(** What makes the matcher fail on a trace. *)
Lemma read_cell_non_numeric field e :
  quoted field = false -> text field <> EmptyString ->
  float (text field) = Raise e -> read_cell field = Raise e.
Proof.
  unfold read_cell. intros -> Hne ->.
  destruct (String.eqb_spec (text field) EmptyString); done.
Qed.

Lemma find_route_non_numeric rows :
  non_numeric rows -> exists e, find_route rows = Raise e.
Proof.
  intros (row & field & e & Hrow & Hfield & Hq & Hne & Hfloat).
  unfold find_route.
  pose proof (read_cell_non_numeric field e Hq Hne Hfloat) as Hcell.
  destruct (mapM_Raise read_cell row field e Hfield Hcell) as [e1 Hrow1].
  destruct (mapM_Raise (mapM read_cell) rows row e1 Hrow Hrow1) as [e2 He2].
  unfold read_nonnumeric. rewrite He2. simpl. eauto.
Qed.

Lemma find_route_one_point row : exists e, find_route [row] = Raise e.
Proof.
  unfold find_route, read_nonnumeric. simpl.
  destruct (mapM read_cell row) as [fields|e]; simpl; [|eauto].
  destruct (index fields 0) as [x|e]; simpl; [|eauto].
  destruct (index fields 1) as [y|e]; simpl; [|eauto].
  destruct (Point x y) as [point|e]; simpl; eauto.
Qed.

Lemma find_route_no_point : find_route [] = Ok [] \/ exists e, find_route [] = Raise e.
Proof.
  unfold find_route. simpl. destruct empty_linestring_ok; simpl; eauto.
Qed.

Lemma route_file_bad file rows :
  non_numeric rows \/ length rows < 2 -> fst (route_file file rows) = [].
Proof.
  unfold route_file. intros [Hbad|Hshort].
  - by destruct (find_route_non_numeric rows Hbad) as [e ->].
  - destruct rows as [|row [|row' rows]]; [| |simpl in Hshort; lia].
    + by destruct find_route_no_point as [->|[e ->]].
    + by destruct (find_route_one_point row) as [e ->].
Qed.

(** The files of a batch are matched one by one. *)
Lemma find_routes_app files1 files2 :
  fst (find_routes (files1 ++ files2))
  = fst (find_routes files1) ++ fst (find_routes files2).
Proof. unfold find_routes. simpl. by rewrite filter_app, map_app. Qed.

Lemma find_routes_cons file rows files :
  endswith_csv file = true ->
  fst (find_routes ((file, rows) :: files))
  = (file, fst (route_file file rows)) :: fst (find_routes files).
Proof.
  intros Hcsv. unfold find_routes. simpl. by rewrite filter_cons_True.
Qed.

Lemma find_routes_names files f :
  f ∈ fst (find_routes files) -> endswith_csv (fst f) = true.
Proof.
  unfold find_routes. simpl. intros Hin.
  apply list_elem_of_fmap in Hin as (g & -> & Hg).
  by apply list_elem_of_filter in Hg as [Hcsv _].
Qed.

Lemma find_routes_output files name trace route :
  (name, trace) ∈ files -> endswith_csv name = true ->
  find_route trace = Ok route -> (name, route) ∈ fst (find_routes files).
Proof.
  intros Hin Hcsv Hroute. unfold find_routes. simpl.
  apply list_elem_of_fmap. exists (name, trace). split.
  - unfold route_file. simpl. by rewrite Hroute.
  - by apply list_elem_of_filter.
Qed.

(** The collector reads the route files one by one. *)
Lemma create_single_route_file_app files1 files2 :
  create_single_route_file (files1 ++ files2)
  = bind (create_single_route_file files1) (fun a =>
      bind (create_single_route_file files2) (fun b => Ok (a ++ b))).
Proof. unfold create_single_route_file. by rewrite filter_app, mapM_app. Qed.

End Matcher.

(** ** The map matcher: claims *)

Section MatcherClaims.
Context {py_float : PyFloat} {geometry_of_network : RoadGeometry}.

(** C1: for a segment from [previous] to [current] and a candidate edge,
    the matcher accepts the edge if and only if the long-edge rule holds
    (overlap with the buffer longer than 80% of the segment) or the
    short-edge rule holds (edge shorter than the segment and overlap longer
    than 70% of the edge). The loop acts on it: a candidate is appended to
    the route, with the timestamp of the segment, exactly when one of the
    two rules holds and the edge is not among the last 5 entries, and a
    candidate that fails both rules is never appended: it leaves the route
    as it is; so every entry the segment adds names a candidate that
    satisfies one of the two rules, and every candidate that satisfies one
    is in the route once the segment is processed. *)
Theorem match_accepts_by_rules (route out : list (Z * value F))
    (previous current : F * F) (timestamp : value F) (edges : list Z) :
  candidates previous current = Ok edges ->
  match_segment route (previous, current, timestamp) = Ok out ->
  (forall edge_id,
     add_route_id edge_id previous current = Ok true
     <-> long_edge_rule edge_id previous current \/
         short_edge_rule edge_id previous current) /\
  (forall built edge_id,
     visit_edge previous current timestamp built edge_id
     = Ok (built ++ [(edge_id, timestamp)])
     <-> (long_edge_rule edge_id previous current \/
          short_edge_rule edge_id previous current) /\
         edge_id ∉ map fst (last_entries NUM_RETURN_JOURNEY built)) /\
  (forall built edge_id,
     add_route_id edge_id previous current = Ok false ->
     visit_edge previous current timestamp built edge_id = Ok built) /\
  (forall built edge_id built',
     visit_edge previous current timestamp built edge_id = Ok built' ->
     ~ (long_edge_rule edge_id previous current \/
        short_edge_rule edge_id previous current) ->
     built' = built) /\
  exists added,
    out = route ++ added /\
    Forall (fun entry =>
              fst entry ∈ edges /\
              (long_edge_rule (fst entry) previous current \/
               short_edge_rule (fst entry) previous current) /\
              snd entry = timestamp) added /\
    forall edge_id,
      edge_id ∈ edges ->
      long_edge_rule edge_id previous current \/
      short_edge_rule edge_id previous current ->
      edge_id ∈ map fst out.
Proof.
  intros Hedges Hmatch. simpl in Hmatch. rewrite Hedges in Hmatch.
  simpl in Hmatch.
  split; [intros; apply add_route_id_rules|].
  split; [intros; rewrite <- add_route_id_rules; apply visit_edge_appends|].
  split; [intros; by apply visit_edge_rejected|].
  split.
  { intros built edge_id built' Hvisit Hfail.
    destruct (visit_edge_cases _ _ _ _ _ _ Hvisit) as [->|(_ & Hacc & _)];
      [done|].
    by apply add_route_id_rules in Hacc. }
  destruct (visit_edges_added _ _ _ _ _ _ Hmatch) as (added & Heq & Hall).
  exists added. split; [done|]. split.
  - eapply Forall_impl; [exact Hall|].
    intros entry (Hin & Hacc & Ht). split; [done|].
    split; [by apply add_route_id_rules | done].
  - intros edge_id Hin Hrule. apply add_route_id_rules in Hrule.
    by eapply visit_edges_accepted.
Qed.

(** C2: in every route file written by the map matcher, two occurrences of
    an edge identifier have at least [NUM_RETURN_JOURNEY] = 5 entries
    between them; this is enforced when the route is built: a candidate is
    appended exactly when it is accepted and its identifier is not among
    the last 5 entries of the route built so far. *)
Theorem find_routes_suppression
    (files : list (string * list (list Cell)))
    (file : string) (route : list (Z * value F)) :
  (file, route) ∈ fst (find_routes files) ->
  suppressed NUM_RETURN_JOURNEY route /\
  NUM_RETURN_JOURNEY = 5 /\
  (forall previous current timestamp built edge_id,
     visit_edge previous current timestamp built edge_id
     = Ok (built ++ [(edge_id, timestamp)])
     <-> add_route_id edge_id previous current = Ok true /\
         edge_id ∉ map fst (last_entries NUM_RETURN_JOURNEY built)).
Proof.
  intros Hin. split; [|split; [done | apply visit_edge_appends]].
  unfold find_routes in Hin. simpl in Hin.
  apply list_elem_of_fmap in Hin as ([name rows] & Heq & _).
  injection Heq as -> ->. unfold route_file. simpl.
  destruct (find_route rows) as [built|e] eqn:Hfind; simpl.
  - by apply find_route_suppressed in Hfind.
  - apply suppressed_nil.
Qed.

(** C3 (amended): every entry of a route was recorded for a segment of the
    trace, from a row [k] to the row [k + 1]; its edge is an accepted
    candidate of that segment and its timestamp is the timestamp of row
    [k], the point at the start of the segment. *)
Theorem find_route_timestamps (rows : list (list Cell))
    (route : list (Z * value F)) :
  find_route rows = Ok route ->
  exists data, read_nonnumeric rows = Ok data /\
    forall entry, entry ∈ route ->
      exists k previous current t_current,
        segment_at data k previous current (snd entry) t_current /\
        candidate (fst entry) previous current /\
        add_route_id (fst entry) previous current = Ok true.
Proof. apply find_route_entries. Qed.

(** C4 (amended): a trace file with a record that is not numeric (a field
    that is neither quoted nor empty and is not a number), or with fewer
    than 2 points, makes the matcher fail for that file only (with no row
    at all the route is empty without a failure when the geometry library
    accepts an empty line); every other file of the batch still gets its
    route, the route files being what they are without the failed file;
    the failed file is left as an empty route file, its message is
    printed between those of the other files, and the consolidated dataset
    holds a record for it, with an empty edge path and no timestamp. *)
Theorem find_routes_skips_bad_file
    (files1 files2 : list (string * list (list Cell)))
    (file : string) (rows : list (list Cell)) :
  endswith_csv file = true ->
  non_numeric rows \/ length rows < 2 ->
  (rows <> [] -> exists e, find_route rows = Raise e) /\
  (forall name trace route,
     (name, trace) ∈ files1 ++ files2 -> endswith_csv name = true ->
     find_route trace = Ok route ->
     (name, route) ∈ fst (find_routes (files1 ++ (file, rows) :: files2))) /\
  fst (find_routes (files1 ++ (file, rows) :: files2))
  = fst (find_routes files1) ++ (file, []) :: fst (find_routes files2) /\
  (rows <> [] ->
   snd (find_routes (files1 ++ (file, rows) :: files2))
   = snd (find_routes files1)
     ++ ("Unable to find route for " ++ file)%string
     :: snd (find_routes files2)) /\
  forall records1 records2,
    create_single_route_file (fst (find_routes files1)) = Ok records1 ->
    create_single_route_file (fst (find_routes files2)) = Ok records2 ->
    create_single_route_file
      (fst (find_routes (files1 ++ (file, rows) :: files2)))
    = Ok (records1 ++ mkRouteRecord (remove_csv 0 file) [] [] :: records2).
Proof.
  intros Hcsv Hbad.
  assert (fst (find_routes (files1 ++ (file, rows) :: files2))
          = fst (find_routes files1) ++ (file, []) :: fst (find_routes files2))
    as Hroutes.
  { rewrite find_routes_app, find_routes_cons by done.
    by rewrite (route_file_bad file rows Hbad). }
  split; [|split; [|split; [done|split]]].
  - intros Hne. destruct Hbad as [Hbad|Hshort].
    + by apply find_route_non_numeric.
    + destruct rows as [|row [|row' rows]]; [done | | simpl in Hshort; lia].
      apply find_route_one_point.
  - intros name trace route Hin Hname Hroute.
    eapply find_routes_output; [|done..].
    apply elem_of_app in Hin as [Hin|Hin]; apply elem_of_app;
      [by left | right; by right].
  - intros Hne.
    assert (exists e, find_route rows = Raise e) as [e Hfail].
    { destruct Hbad as [Hbad|Hshort]; [by apply find_route_non_numeric|].
      destruct rows as [|row [|row' rows]]; [done | | simpl in Hshort; lia].
      apply find_route_one_point. }
    unfold find_routes. cbn [snd]. rewrite filter_app, omap_app.
    rewrite filter_cons_True by done. csimpl.
    unfold route_file at 2. by rewrite Hfail.
  - intros records1 records2 H1 H2. rewrite Hroutes.
    change ((file, []) :: fst (find_routes files2))
      with ([(file, @nil (Z * value F))] ++ fst (find_routes files2)).
    rewrite !create_single_route_file_app, H1, H2. simpl.
    unfold create_single_route_file at 1.
    rewrite filter_cons_True by done. simpl. done.
Qed.

End MatcherClaims.

(** ** The map matcher on concrete traces *)

Lemma match_accepts_by_rules_witness :
  exists added,
    [(7%Z, QNum 100)] = [] ++ added /\
    Forall (fun entry =>
              fst entry ∈ [7%Z] /\
              (@long_edge_rule QFloat axis_geometry (fst entry) (0, 0)%Q (1, 0)%Q \/
               @short_edge_rule QFloat axis_geometry (fst entry) (0, 0)%Q (1, 0)%Q) /\
              snd entry = QNum 100) added /\
    forall edge_id,
      edge_id ∈ [7%Z] ->
      @long_edge_rule QFloat axis_geometry edge_id (0, 0)%Q (1, 0)%Q \/
      @short_edge_rule QFloat axis_geometry edge_id (0, 0)%Q (1, 0)%Q ->
      edge_id ∈ map fst [(7%Z, QNum 100)].
Proof.
  apply (@match_accepts_by_rules QFloat axis_geometry [] [(7%Z, QNum 100)]
           (0, 0)%Q (1, 0)%Q (QNum 100) [7%Z]); reflexivity.
Defined.

Lemma find_routes_suppression_witness :
  @suppressed QFloat NUM_RETURN_JOURNEY [(7%Z, QNum 100)].
Proof.
  apply (@find_routes_suppression QFloat axis_geometry batch "c.csv").
  vm_compute. do 2 right. left.
Defined.

Lemma find_route_timestamps_witness :
  exists data, @read_nonnumeric QFloat short_trip = Ok data /\
    forall entry, entry ∈ [(7%Z, QNum 100)] ->
      exists k previous current t_current,
        @segment_at QFloat axis_geometry data k previous current (snd entry)
          t_current /\
        @candidate QFloat axis_geometry (fst entry) previous current /\
        @add_route_id QFloat axis_geometry (fst entry) previous current
        = Ok true.
Proof.
  apply (@find_route_timestamps QFloat axis_geometry short_trip).
  reflexivity.
Defined.

(** C3 as stated fails: the one segment of [short_trip] starts at time 100
    and ends at time 200, and the edge matched is recorded with 100. *)
Lemma find_route_records_start_time :
  @find_route QFloat axis_geometry short_trip = Ok [(7%Z, QNum 100)] /\
  @segment_at QFloat axis_geometry
    [[QNum 0; QNum 0; QNum 100]; [QNum 1; QNum 0; QNum 200]] 0
    (0%Q, 0%Q) (1%Q, 0%Q) (QNum 100) (QNum 200) /\
  ~ Qeq 100 200.
Proof.
  split; [reflexivity|]. split.
  - exists [QNum 0; QNum 0; QNum 100], [QNum 1; QNum 0; QNum 200].
    split; [done|]. split; [done|].
    split; [by exists (QNum 0), (QNum 0)|]. split; [done|].
    split; [by exists (QNum 1), (QNum 0) | done].
  - discriminate.
Qed.

Lemma find_routes_skips_bad_file_witness :
  fst (@find_routes QFloat axis_geometry batch)
  = [("a.csv"%string, [(7%Z, QNum 100)]); ("b.csv"%string, []);
     ("c.csv"%string, [(7%Z, QNum 100)])] /\
  @create_single_route_file QFloat (fst (@find_routes QFloat axis_geometry batch))
  = Ok [mkRouteRecord "a" [7%Z] [100%Z]; mkRouteRecord "b" [] [];
        mkRouteRecord "c" [7%Z] [100%Z]].
Proof.
  destruct (@find_routes_skips_bad_file QFloat axis_geometry
              [("a.csv"%string, short_trip)] [("c.csv"%string, east_trip)]
              "b.csv" garbled_trip eq_refl) as (_ & _ & Hroutes & _ & Hrecords).
  - left. exists (map unquoted ["north"; "0"; "100"]%string),
                 (unquoted "north"), ValueError.
    split; [left|]. split; [left|]. split; [reflexivity|].
    split; [discriminate | reflexivity].
  - split; [exact Hroutes|].
    exact (Hrecords [mkRouteRecord "a" [7%Z] [100%Z]]
                    [mkRouteRecord "c" [7%Z] [100%Z]] eq_refl eq_refl).
Defined.

(** C4 as stated fails: file b.csv of [batch] has a latitude that is not a
    number, the matcher fails on it, and the consolidated dataset has a
    record for vehicle b, with an empty route. *)
Lemma failed_file_is_collected :
  (exists e, @find_route QFloat axis_geometry garbled_trip = Raise e) /\
  @create_single_route_file QFloat (fst (@find_routes QFloat axis_geometry batch))
  = Ok [mkRouteRecord "a" [7%Z] [100%Z]; mkRouteRecord "b" [] [];
        mkRouteRecord "c" [7%Z] [100%Z]] /\
  mkRouteRecord "b" [] []
  ∈ [mkRouteRecord "a" [7%Z] [100%Z]; mkRouteRecord "b" [] [];
     mkRouteRecord "c" [7%Z] [100%Z]].
Proof.
  split; [by exists ValueError|]. split; [reflexivity|]. right. left.
Qed.

(** Fields that are empty or quoted are not converted, and do not make the
    matcher fail: the traces are matched, and the routes carry the texts
    as timestamps. *)
Lemma find_route_keeps_texts :
  @find_route QFloat axis_geometry untimed_trip
  = Ok [(7%Z, @Text Q EmptyString)] /\
  @find_route QFloat axis_geometry noon_trip
  = Ok [(7%Z, @Text Q "noon")].
Proof. split; reflexivity. Qed.

(** ** The traffic aggregator *)

Section Aggregator.
Context {py_float : PyFloat}.

Lemma count_routes_entries lut route_files :
  count_routes lut route_files = foldM count_entry lut (all_entries route_files).
Proof.
  unfold count_routes, all_entries.
  generalize (filter (fun f : string * list (Z * value F) =>
                        endswith_csv (fst f) = true) route_files).
  intros fs. revert lut; induction fs as [|f fs IH]; intros lut; simpl; [done|].
  rewrite foldM_app. destruct (foldM count_entry lut (snd f)); simpl; auto.
Qed.

(** The first loop. *)
Lemma seed_lookup_is_Some road_network (lut0 : gmap Z (Road * nat)) k :
  is_Some (fold_left (fun lut road => <[g_id road := (road, 0)]> lut)
             road_network lut0 !! k)
  <-> k ∈ map g_id road_network \/ is_Some (lut0 !! k).
Proof.
  revert lut0; induction road_network as [|road roads IH]; intros lut0; simpl.
  - split; [by right | intros [Hin|]; [by apply elem_of_nil in Hin | done]].
  - rewrite IH, lookup_insert_is_Some, elem_of_cons.
    destruct (decide (g_id road = k)) as [Heq|Hne].
    + split; [intros _; by left; left | intros _; by right; left].
    + split.
      * intros [Hin|[Heq|[_ Hk]]]; [by left; right | done | by right].
      * intros [[Heq|Hin]|Hk];
          [done | by left | by right; right].
Qed.

Lemma seed_lookup_zero road_network (lut0 : gmap Z (Road * nat)) :
  (forall k road n, lut0 !! k = Some (road, n) -> g_id road = k /\ n = 0) ->
  forall k road n,
    fold_left (fun lut road => <[g_id road := (road, 0)]> lut)
      road_network lut0 !! k = Some (road, n) ->
    g_id road = k /\ n = 0.
Proof.
  revert lut0; induction road_network as [|r roads IH]; intros lut0 H0;
    simpl; [done|].
  apply IH. intros k road n Hk.
  apply lookup_insert_Some in Hk as [[<- Heq]|[_ Hk]]; [|eauto].
  by injection Heq as <- <-.
Qed.

Lemma traffic_sum_zero (counted : list (Road * nat)) :
  Forall (fun c => snd c = 0) counted -> traffic_sum counted = 0.
Proof.
  unfold traffic_sum. induction 1 as [|c counted Hc _ IH]; simpl; [done|].
  by rewrite Hc, IH.
Qed.

Lemma seed_counts_ok road_network :
  counts_ok road_network (seed_counts road_network) [].
Proof.
  assert (forall k road n, seed_counts road_network !! k = Some (road, n) ->
            g_id road = k /\ n = 0) as Hzero.
  { apply (seed_lookup_zero road_network ∅). intros k road n Hk.
    by rewrite lookup_empty in Hk. }
  unfold counts_ok. split; [|split; [|split]].
  - intros k. unfold seed_counts. rewrite seed_lookup_is_Some. split.
    + intros [Hk|Hk]; [done|]. rewrite lookup_empty in Hk. by destruct Hk.
    + by left.
  - intros k road n Hk. by apply Hzero in Hk.
  - apply traffic_sum_zero, Forall_forall. intros c Hc.
    apply list_elem_of_fmap in Hc as ([k [road n]] & -> & Hkc).
    apply elem_of_map_to_list in Hkc. simpl.
    by apply Hzero in Hkc as [_ ->].
  - constructor.
Qed.

(** One entry: the count of its edge grows by one, the others stay. *)
Lemma count_entry_step lut entry lut' :
  count_entry lut entry = Ok lut' ->
  forall k road n, lut !! k = Some (road, n) ->
    lut' !! k = Some (road, if decide (k = fst entry) then S n else n).
Proof.
  unfold count_entry. intros Hc k road n Hk.
  destruct (lut !! fst entry) as [[r m]|] eqn:He; [|discriminate].
  injection Hc as <-. case_decide as Heq.
  - subst k. rewrite lookup_insert_eq. congruence.
  - by rewrite lookup_insert_ne.
Qed.

Lemma count_entry_sum (lut : gmap Z (Road * nat)) k road n :
  lut !! k = Some (road, n) ->
  traffic_sum (map snd (map_to_list (<[k := (road, S n)]> lut)))
  = S (traffic_sum (map snd (map_to_list lut))).
Proof.
  intros Hk. unfold traffic_sum.
  rewrite <- (insert_delete_eq lut k (road, S n)).
  rewrite (map_to_list_insert (delete k lut) k (road, S n))
    by apply lookup_delete_eq.
  rewrite <- (map_to_list_delete lut k (road, n) Hk). done.
Qed.

Lemma visits_snoc k (seen : list (Z * value F)) entry :
  visits k (seen ++ [entry])
  = if decide (k = fst entry) then S (visits k seen) else visits k seen.
Proof.
  unfold visits. rewrite filter_app, length_app.
  case_decide as Heq.
  - rewrite (filter_cons_True _ entry []) by done. simpl. lia.
  - rewrite (filter_cons_False _ entry []) by congruence. simpl. lia.
Qed.

Lemma count_entry_ok road_network lut seen entry lut' :
  counts_ok road_network lut seen ->
  count_entry lut entry = Ok lut' ->
  counts_ok road_network lut' (seen ++ [entry]).
Proof.
  intros (Hdom & Hval & Hsum & Hseen) Hc.
  pose proof (count_entry_step _ _ _ Hc) as Hstep.
  unfold count_entry in Hc.
  destruct (lut !! fst entry) as [[r m]|] eqn:He; [|discriminate].
  injection Hc as <-.
  assert (fst entry ∈ map g_id road_network) as Hin by (apply Hdom; eauto).
  split; [|split; [|split]].
  - intros k. split.
    + intros Hk. apply lookup_insert_is_Some in Hk as [<-|[_ Hk]];
        [done | by apply Hdom].
    + intros Hk. apply lookup_insert_is_Some.
      destruct (decide (fst entry = k)); [by left | right].
      split; [done | by apply Hdom].
  - intros k road n Hk. rewrite visits_snoc.
    apply lookup_insert_Some in Hk as [[<- Heq]|[Hne Hk]].
    + injection Heq as <- <-. rewrite decide_True by done.
      destruct (Hval _ _ _ He) as [Hid Hn]. by rewrite <- Hn.
    + rewrite decide_False by done. by apply (Hval _ _ _ Hk).
  - rewrite (count_entry_sum lut _ _ _ He), Hsum, length_app. simpl. lia.
  - apply Forall_app. split; [done | by constructor].
Qed.

Lemma count_entries_ok road_network entries lut seen lut' :
  counts_ok road_network lut seen ->
  foldM count_entry lut entries = Ok lut' ->
  counts_ok road_network lut' (seen ++ entries).
Proof.
  revert lut seen; induction entries as [|entry entries IH];
    intros lut seen Hok Hf; simpl in Hf.
  - injection Hf as <-. by rewrite app_nil_r.
  - inv_bind Hf. change (entry :: entries) with ([entry] ++ entries).
    rewrite app_assoc.
    eapply IH; [|exact Hf]. by eapply count_entry_ok.
Qed.

(** An entry that names no edge of the network stops the loop. *)
Lemma count_entries_result road_network entries lut seen :
  counts_ok road_network lut seen ->
  (dangling_entries road_network entries <> [] ->
   foldM count_entry lut entries = Raise KeyError) /\
  (dangling_entries road_network entries = [] ->
   exists lut', foldM count_entry lut entries = Ok lut').
Proof.
  unfold dangling_entries.
  revert lut seen; induction entries as [|entry entries IH];
    intros lut seen Hok; [split; [done | by exists lut]|].
  simpl foldM.
  destruct (decide (fst entry ∈ map g_id road_network)) as [Hin|Hout].
  - rewrite filter_cons_False by (by intros Hn).
    destruct Hok as (Hdom & Hrest). apply Hdom in Hin as Hsome.
    destruct Hsome as [[road n] He].
    assert (count_entry lut entry
            = Ok (<[fst entry := (road, S n)]> lut)) as Hc
      by (unfold count_entry; by rewrite He).
    rewrite Hc. simpl.
    apply (IH _ (seen ++ [entry])).
    eapply count_entry_ok; [|exact Hc]. by split.
  - rewrite filter_cons_True by done.
    assert (lut !! fst entry = None) as He.
    { destruct Hok as (Hdom & _).
      destruct (lut !! fst entry) eqn:He; [|done].
      exfalso. apply Hout, Hdom. eauto. }
    unfold count_entry. rewrite He. simpl. split; [done|]. discriminate.
Qed.

(** The items of the dictionary, whatever their order. *)
Lemma lut_items_Permutation (keys : list Z) (lut : gmap Z (Road * nat)) :
  NoDup keys -> (forall k, is_Some (lut !! k) <-> k ∈ keys) ->
  omap (fun k => lut !! k) keys ≡ₚ map snd (map_to_list lut).
Proof.
  revert lut; induction keys as [|k keys IH]; intros lut Hnd Hdom.
  - assert (lut = ∅) as ->.
    { apply map_empty. intros i. destruct (lut !! i) eqn:Hi; [|done].
      exfalso. eapply elem_of_nil, Hdom. eauto. }
    by rewrite map_to_list_empty.
  - apply NoDup_cons in Hnd as [Hk Hnd].
    destruct (proj2 (Hdom k)) as [v Hv]; [left|].
    simpl. rewrite Hv.
    rewrite <- (map_to_list_delete lut k v Hv). simpl. constructor.
    rewrite <- (IH (delete k lut) Hnd).
    + erewrite list_omap_ext; [done|].
      apply Forall2_same_length_lookup. split; [done|].
      intros i x y Hx Hy. assert (x = y) as <- by congruence.
      rewrite lookup_delete_ne; [done|].
      intros <-. apply Hk. apply list_elem_of_lookup. eauto.
    + intros j. rewrite lookup_delete_is_Some, Hdom, elem_of_cons. split.
      * intros [Hne [Heq|Hin]]; done.
      * intros Hin. split; [|by right]. by intros ->.
Qed.

Lemma lut_keys_items road_network (lut : gmap Z (Road * nat)) :
  (forall k, is_Some (lut !! k) <-> k ∈ map g_id road_network) ->
  omap (fun k => lut !! k) (lut_keys road_network)
  ≡ₚ map snd (map_to_list lut).
Proof.
  intros Hdom. apply lut_items_Permutation.
  - unfold lut_keys. rewrite reverse_Permutation. apply NoDup_remove_dups.
  - intros k. unfold lut_keys.
    by rewrite Hdom, elem_of_reverse, elem_of_remove_dups, elem_of_reverse.
Qed.

Lemma no_dangling_entries road_network (entries : list (Z * value F)) :
  Forall (fun entry => fst entry ∈ map g_id road_network) entries ->
  dangling_entries road_network entries = [].
Proof.
  unfold dangling_entries. induction 1 as [|entry entries Hin _ IH]; [done|].
  by rewrite filter_cons_False by (by intros Hn).
Qed.

(** C8 (amended): the aggregator starts with the count 0 for every edge
    identifier of the network; an entry adds exactly one to the count of
    the edge it names and leaves the other counts as they are, so that no
    count ever decreases. When it returns, no entry names an edge absent
    from the network, every edge of the network has a count, the number of
    entries that name it, and the counts add up to the number of
    (route, entry) pairs, nothing being subtracted; an entry that names an
    absent edge is not left out of the sum: it raises [KeyError], and no
    count is returned. *)
Theorem traffic_count_conservation (road_network : list Road)
    (route_files : list (string * list (Z * value F))) :
  (forall k, k ∈ map g_id road_network <->
             exists road, seed_counts road_network !! k = Some (road, 0)) /\
  (forall lut entry lut', count_entry lut entry = Ok lut' ->
     forall k road n, lut !! k = Some (road, n) ->
       lut' !! k = Some (road, if decide (k = fst entry) then S n else n)) /\
  (forall counted,
     add_traffic_count_to_road_network road_network route_files = Ok counted ->
     dangling_entries road_network (all_entries route_files) = [] /\
     (forall k, k ∈ map g_id road_network <->
                exists road n, (road, n) ∈ counted /\ g_id road = k) /\
     (forall road n, (road, n) ∈ counted ->
        n = visits (g_id road) (all_entries route_files)) /\
     traffic_sum counted = length (all_entries route_files)) /\
  (dangling_entries road_network (all_entries route_files) <> [] ->
   add_traffic_count_to_road_network road_network route_files
   = Raise KeyError).
Proof.
  split; [|split; [|split]].
  - intros k. destruct (seed_counts_ok road_network) as (Hdom0 & Hval0 & _).
    rewrite <- Hdom0. split.
    + intros [[road n] Hk]. exists road.
      by destruct (Hval0 _ _ _ Hk) as [_ ->].
    + intros [road Hk]. eauto.
  - apply count_entry_step.
  - unfold add_traffic_count_to_road_network. intros counted Hadd.
    inv_bind Hadd. rename a into lut. injection Hadd as <-.
    rewrite count_routes_entries in Ha.
    pose proof (count_entries_ok _ _ _ _ _ (seed_counts_ok road_network) Ha)
      as (Hdom & Hval & Hsum & Hseen).
    simpl in Hval, Hsum, Hseen.
    pose proof (lut_keys_items road_network lut Hdom) as Hperm.
    assert (forall road n,
              (road, n) ∈ omap (fun k => lut !! k) (lut_keys road_network)
              <-> exists k, lut !! k = Some (road, n)) as Hitems.
    { intros road n. rewrite Hperm, list_elem_of_fmap. split.
      - intros ([k v] & -> & Hkv). apply elem_of_map_to_list in Hkv. eauto.
      - intros [k Hk]. exists (k, (road, n)).
        split; [done | by apply elem_of_map_to_list]. }
    split; [by apply no_dangling_entries|]. split; [|split].
    + intros k. rewrite <- Hdom. split.
      * intros [[road n] Hk]. exists road, n.
        split; [apply Hitems; eauto | by apply (Hval _ _ _ Hk)].
      * intros (road & n & Hin & <-). apply Hitems in Hin as [k Hk].
        destruct (Hval _ _ _ Hk) as [-> _]. eauto.
    + intros road n Hin. apply Hitems in Hin as [k Hk].
      by destruct (Hval _ _ _ Hk) as [-> ->].
    + unfold traffic_sum in *. by rewrite Hperm.
  - unfold add_traffic_count_to_road_network.
    rewrite count_routes_entries. intros Hd.
    destruct (count_entries_result road_network (all_entries route_files)
                _ [] (seed_counts_ok road_network)) as [Hraise _].
    by rewrite (Hraise Hd).
Qed.

(** C9 (amended): if some route names an edge identifier absent from the
    network, the aggregator raises [KeyError] at that entry and returns no
    count at all, for that route or for any other; it returns the counts
    exactly when every entry of every route names an edge of the
    network. *)
Theorem traffic_count_dangling (road_network : list Road)
    (route_files : list (string * list (Z * value F))) :
  (dangling_entries road_network (all_entries route_files) <> [] ->
   add_traffic_count_to_road_network road_network route_files
   = Raise KeyError) /\
  (dangling_entries road_network (all_entries route_files) = [] ->
   exists counted,
     add_traffic_count_to_road_network road_network route_files = Ok counted).
Proof.
  unfold add_traffic_count_to_road_network.
  rewrite count_routes_entries.
  destruct (count_entries_result road_network (all_entries route_files)
              _ [] (seed_counts_ok road_network)) as [Hraise Hok].
  split.
  - intros Hd. by rewrite (Hraise Hd).
  - intros Hd. destruct (Hok Hd) as [lut ->]. simpl. eauto.
Qed.

End Aggregator.

(** ** The traffic aggregator on concrete routes *)

Lemma traffic_count_conservation_witness :
  @dangling_entries QFloat two_roads (@all_entries QFloat counted_routes) = []
  /\ @traffic_sum QFloat
       [(@mkRoad QFloat 1 [(0, 0); (1, 0)]%Q, 2);
        (@mkRoad QFloat 2 [(1, 0); (2, 0)]%Q, 1)]
     = length (@all_entries QFloat counted_routes).
Proof.
  destruct (@traffic_count_conservation QFloat two_roads counted_routes)
    as (_ & _ & Hcounted & _).
  destruct (Hcounted _ eq_refl) as (Hnone & _ & _ & Hsum).
  exact (conj Hnone Hsum).
Defined.

(** C8 as stated fails: the route of b.csv names edge 1, the route of
    a.csv names edge 3, which the network does not have. The claim gives
    counts that add up to 2 - 1 = 1; the aggregator counts the entry of
    b.csv, raises [KeyError] at the entry of a.csv, and returns no count
    at all. *)
Lemma absent_edge_is_not_subtracted :
  length (@all_entries QFloat late_stray_routes)
  - length (@dangling_entries QFloat two_roads
              (@all_entries QFloat late_stray_routes)) = 1 /\
  @add_traffic_count_to_road_network QFloat two_roads late_stray_routes
  = Raise KeyError /\
  ~ exists counted,
      @add_traffic_count_to_road_network QFloat two_roads late_stray_routes
      = Ok counted /\ @traffic_sum QFloat counted = 1.
Proof.
  split; [reflexivity|]. split; [reflexivity|].
  intros (counted & Hadd & _). discriminate.
Qed.

Lemma traffic_count_dangling_witness :
  @add_traffic_count_to_road_network QFloat two_roads stray_routes
  = Raise KeyError.
Proof.
  apply (proj1 (@traffic_count_dangling QFloat two_roads stray_routes)).
  discriminate.
Defined.

(** C9 as stated fails: the route of a.csv names edge 3, which the network
    does not have; the route of b.csv names edge 1 only, and alone it is
    counted; with a.csv in the folder no count is produced. *)
Lemma dangling_reference_aborts :
  @add_traffic_count_to_road_network QFloat two_roads
    [("b.csv"%string, [(1%Z, QNum 300)])]
  = Ok [(@mkRoad QFloat 1 [(0, 0); (1, 0)]%Q, 1);
        (@mkRoad QFloat 2 [(1, 0); (2, 0)]%Q, 0)] /\
  @add_traffic_count_to_road_network QFloat two_roads stray_routes
  = Raise KeyError.
Proof. split; reflexivity. Qed.

(** * Further properties *)

(** ** The trace reducer: what it reads, and how it walks a folder *)

Section ReducerMore.
Context {py_float : PyFloat}.

Lemma movement_retime g min_lat min_lon a b :
  movement min_lat min_lon (retime g a) (retime g b)
  = movement min_lat min_lon a b.
Proof. reflexivity. Qed.

Lemma reduse_step_retime g data_moving p c :
  reduse_step (map (retime g) data_moving) (retime g p, retime g c)
  = result_map (map (retime g)) (reduse_step data_moving (p, c)).
Proof.
  unfold reduse_step. rewrite movement_retime.
  destruct (movement MIN_LAT_MOV MIN_LON_MOV p c) as [[]|e]; simpl; [|done..].
  rewrite length_map.
  destruct (length data_moving =? 0).
  { simpl. by rewrite map_app. }
  change (last (map (retime g) data_moving))
    with (last (retime g <$> data_moving)).
  rewrite fmap_last.
  destruct (last data_moving) as [anchor|]; simpl; [|done].
  rewrite movement_retime.
  destruct (movement MIN_LAT_SAMPLE MIN_LON_SAMPLE anchor c) as [[]|e];
    simpl; [|done..].
  by rewrite map_app.
Qed.

Lemma reduse_loop_retime g pairs data_moving :
  foldM reduse_step (map (retime g) data_moving)
    (map (fun pair => (retime g (fst pair), retime g (snd pair))) pairs)
  = result_map (map (retime g)) (foldM reduse_step data_moving pairs).
Proof.
  revert data_moving; induction pairs as [|[p c] pairs IH];
    intros data_moving; [done|].
  cbn [map foldM fst snd]. rewrite reduse_step_retime.
  destruct (reduse_step data_moving (p, c)) as [acc|e]; simpl; [apply IH | done].
Qed.

Lemma zip_map_both {A B} (f : A -> B) (l k : list A) :
  zip (map f l) (map f k) = map (fun pair => (f (fst pair), f (snd pair))) (zip l k).
Proof.
  revert k; induction l as [|x l IH]; intros [|y k]; simpl; [done..|].
  f_equal. apply IH.
Qed.

(** X1: the loop of the reducer converts no field of the first row of
    [data], and no time field: with another first row, and with the time
    fields rewritten by any function, it raises the same exception or
    emits the same rows, their time fields rewritten by that function. *)
Theorem reduse_rows_header_and_time (g : string -> string)
    (first first' : GpsRow) (rest : list GpsRow) :
  reduse_rows (first' :: map (retime g) rest)
  = result_map (map (retime g)) (reduse_rows (first :: rest)).
Proof.
  unfold reduse_rows. rewrite !loop_pairs.
  change (tail (first' :: map (retime g) rest)) with (map (retime g) rest).
  change (drop 2 (first' :: map (retime g) rest))
    with (drop 1 (map (retime g) rest)).
  change (tail (first :: rest)) with rest.
  change (drop 2 (first :: rest)) with (drop 1 rest).
  replace (drop 1 (map (retime g) rest)) with (map (retime g) (drop 1 rest))
    by (by destruct rest).
  rewrite zip_map_both. apply (reduse_loop_retime g _ []).
Qed.

(** The pairs of a trace go on when rows are appended. *)
Lemma adjacent_app {A} (l more : list A) :
  exists extra, zip (l ++ more) (tail (l ++ more)) = zip l (tail l) ++ extra.
Proof.
  induction l as [|x [|y l] IH].
  - by exists (zip more (tail more)).
  - exists (zip (x :: more) more). by destruct more.
  - destruct IH as [extra IH]. exists extra.
    change (zip ((x :: y :: l) ++ more) (tail ((x :: y :: l) ++ more)))
      with ((x, y) :: zip ((y :: l) ++ more) (tail ((y :: l) ++ more))).
    by rewrite IH.
Qed.

Lemma loop_pairs_app (data more : list GpsRow) :
  exists extra,
    zip (slice_1_m1 (data ++ more)) (drop 2 (data ++ more))
    = zip (slice_1_m1 data) (drop 2 data) ++ extra.
Proof.
  rewrite !loop_pairs. destruct data as [|first data].
  - simpl. eauto.
  - change (tail ((first :: data) ++ more)) with (data ++ more).
    change (drop 2 ((first :: data) ++ more)) with (tail (data ++ more)).
    change (tail (first :: data)) with data.
    change (drop 2 (first :: data)) with (tail data).
    apply adjacent_app.
Qed.

(** The loop over [data]: rows appended never change what the rows before
    them made the loop do. *)
Lemma reduse_rows_append (data more : list GpsRow) :
  (forall e, reduse_rows data = Raise e ->
             reduse_rows (data ++ more) = Raise e) /\
  (forall out out', reduse_rows data = Ok out ->
                    reduse_rows (data ++ more) = Ok out' ->
                    out `prefix_of` out').
Proof.
  unfold reduse_rows. destruct (loop_pairs_app data more) as [extra ->].
  rewrite foldM_app. split.
  - by intros e ->.
  - intros out out' -> Hmore. simpl in Hmore.
    apply reduse_loop_kept in Hmore as (kept & -> & _).
    by exists kept.
Qed.

Lemma select_columns_Raise row e :
  select_columns row = Raise e -> e = IndexError.
Proof.
  unfold select_columns, index. intros Hs.
  destruct (row !! 2); simpl in Hs; [|congruence].
  destruct (row !! 3); simpl in Hs; [|congruence].
  destruct (row !! 8); simpl in Hs; [discriminate | congruence].
Qed.

Lemma data_Raise rows e :
  mapM select_columns rows = Raise e -> e = IndexError.
Proof.
  induction rows as [|row rows IH]; simpl; [discriminate|].
  destruct (select_columns row) as [r|e'] eqn:Hrow; simpl.
  - destruct (mapM select_columns rows); simpl; [discriminate|].
    intros He. injection He as <-. by apply IH.
  - intros He. injection He as <-. by apply select_columns_Raise in Hrow.
Qed.

(** X2: rows appended to a raw trace never undo what the rows before them
    made the reducer do. When the shorter file raises, the longer one
    raises too: the same exception when every appended row has its nine
    fields, and otherwise that exception or the [IndexError] of the
    appended row, which is raised while [data] is built, before any row is
    compared. When both files are reduced, the rows written for the
    shorter one are at the head of those written for the longer one. *)
Theorem reduse_dataset_append (rows more : list (list string)) :
  (forall e, reduse_dataset rows = Raise e ->
     reduse_dataset (rows ++ more) = Raise e \/
     reduse_dataset (rows ++ more) = Raise IndexError) /\
  (forall e more_data,
     mapM select_columns more = Ok more_data ->
     reduse_dataset rows = Raise e ->
     reduse_dataset (rows ++ more) = Raise e) /\
  (forall out out', reduse_dataset rows = Ok out ->
                    reduse_dataset (rows ++ more) = Ok out' ->
                    out `prefix_of` out').
Proof.
  unfold reduse_dataset. rewrite mapM_app.
  destruct (mapM select_columns rows) as [data|e0] eqn:Hdata; simpl.
  2: { split; [intros e He; by left|].
       split; [by intros e d _ He | discriminate]. }
  pose proof (reduse_rows_append data) as Hraise.
  split; [|split].
  - intros e He.
    destruct (mapM select_columns more) as [more_data|e1] eqn:Hmore; simpl.
    + left. destruct (reduse_rows data) as [kept|e'] eqn:Hred;
        simpl in He; [discriminate|].
      injection He as <-. by rewrite (proj1 (Hraise more_data) e').
    + right. by rewrite (data_Raise _ _ Hmore).
  - intros e more_data -> He. simpl.
    destruct (reduse_rows data) as [kept|e'] eqn:Hred;
      simpl in He; [discriminate|].
    injection He as <-. by rewrite (proj1 (Hraise more_data) e').
  - intros out out' Hout Hout'.
    destruct (mapM select_columns more) as [more_data|e1]; simpl in Hout';
      [|discriminate].
    inv_bind Hout. inv_bind Hout'. injection Hout as <-.
    injection Hout' as <-.
    destruct (proj2 (Hraise more_data) _ _ Ha Ha0) as [kept ->].
    exists (map written_row kept). by rewrite map_app.
Qed.

(** The rows emitted have a latitude and a longitude that are numbers. *)
Lemma reduse_rows_numeric data out :
  reduse_rows data = Ok out -> Forall numeric_row out.
Proof.
  intros Hred. apply Forall_forall. intros r Hr.
  destruct (reduse_loop_origin _ _ _ r Hred Hr) as [Hnil|(p & _ & Hmov)];
    [by apply elem_of_nil in Hnil|].
  apply movement_true in Hmov as (a0 & b0 & a1 & b1 & _ & Hb0 & _ & Hb1 & _).
  by exists b0, b1.
Qed.

Lemma reduse_dataset_walk_good files :
  Forall (fun f => endswith_csv (fst f) = true ->
                   exists out, reduse_dataset (snd f) = Ok out) files ->
  snd (reduse_dataset_walk files) = None /\
  map fst (fst (reduse_dataset_walk files))
  = map fst (filter (fun f => endswith_csv (fst f) = true) files).
Proof.
  induction 1 as [|f files Hf _ [IH1 IH2]]; [done|]. simpl.
  destruct (endswith_csv (fst f)) eqn:Hcsv.
  - rewrite filter_cons_True by done. destruct Hf as [out ->]; [done|].
    destruct (reduse_dataset_walk files) as [sinks e]. simpl in *.
    split; [done | by f_equal].
  - rewrite filter_cons_False by (by rewrite Hcsv). done.
Qed.

(** X3: the walk of [reduse_dataset] stops at the first file that raises:
    the files before it are reduced, its own sink is left empty, the files
    after it are not touched, and the exception leaves the function. *)
Theorem reduse_dataset_walk_stops
    (good rest : list (string * list (list string)))
    (file : string) (rows : list (list string)) (e : exn) :
  Forall (fun f => endswith_csv (fst f) = true ->
                   exists out, reduse_dataset (snd f) = Ok out) good ->
  endswith_csv file = true ->
  reduse_dataset rows = Raise e ->
  reduse_dataset_walk (good ++ (file, rows) :: rest)
  = (fst (reduse_dataset_walk good) ++ [(file, [])], Some e).
Proof.
  intros Hgood Hcsv Hraise.
  induction Hgood as [|f good Hf _ IH]; simpl.
  - by rewrite Hcsv, Hraise.
  - destruct (endswith_csv (fst f)) eqn:Hf_csv; [|done].
    destruct Hf as [out ->]; [done|]. rewrite IH.
    by destruct (reduse_dataset_walk good).
Qed.

End ReducerMore.

(** ** The map matcher: empty routes, lost routes, order *)

Section MatcherMore.
Context {py_float : PyFloat} {geometry_of_network : RoadGeometry}.

(** Segments whose candidates are all rejected leave the route as it
    is. *)
Lemma match_segments_rejected items route :
  (forall k previous current timestamp,
     items !! k = Some (previous, current, timestamp) ->
     exists edges,
       candidates previous current = Ok edges /\
       forall edge_id, edge_id ∈ edges ->
         add_route_id edge_id previous current = Ok false) ->
  foldM match_segment route items = Ok route.
Proof.
  induction items as [|[[p c] t] items IH]; intros Hrej; simpl; [done|].
  destruct (Hrej 0 p c t eq_refl) as (edges & -> & Hedges). simpl.
  rewrite (visit_edges_rejected _ _ _ _ _ Hedges). simpl.
  apply IH. intros k. apply (Hrej (S k)).
Qed.

(** X4: a trace of two or more records the matcher can use gives the empty
    route, not an exception, when on each of its segments the index
    returns candidates, none or some, that all fail both rules. *)
Theorem find_route_no_match (rows : list (list Cell))
    (data : list (list (value F))) :
  1 < length rows -> Forall numeric_record rows ->
  read_nonnumeric rows = Ok data ->
  (forall k previous current t t',
     segment_at data k previous current t t' ->
     exists edges,
       candidates previous current = Ok edges /\
       forall edge_id, edge_id ∈ edges ->
         add_route_id edge_id previous current = Ok false) ->
  find_route rows = Ok [].
Proof.
  intros Hlen Hrows Hdata Hnone.
  destruct (find_route_loop rows Hlen Hrows)
    as (data' & points & timestamps & Hdata' & Hpoints & Hstamps & ->).
  assert (data' = data) as -> by congruence.
  apply match_segments_rejected. intros k p c t Hk.
  destruct (segment_of_item _ _ _ _ _ _ _ Hpoints Hstamps Hk) as [t' Hseg].
  by apply (Hnone k p c t t').
Qed.

(** One segment that raises, and the loop over the segments raises. *)
Lemma match_segments_raise items route k item :
  items !! k = Some item ->
  (forall built, exists e, match_segment built item = Raise e) ->
  exists e, foldM match_segment route items = Raise e.
Proof.
  revert route k; induction items as [|first items IH]; intros route k Hk Hraise;
    [done|].
  simpl. destruct k as [|k]; simpl in Hk.
  - injection Hk as ->. destruct (Hraise route) as [e ->]. simpl. eauto.
  - destruct (match_segment route first) as [built|e]; simpl; eauto.
Qed.

(** X5: an exception of the geometry on one segment loses the route of the
    whole file: when the spatial index raises for a segment of the trace,
    or the lengths of one of its candidates cannot be computed, the
    matcher fails, the edges matched on the segments before are not
    written, the route file is left empty and the message is printed. *)
Theorem find_route_geometry_error (file : string) (rows : list (list Cell))
    (data : list (list (value F))) (k : nat) (previous current : F * F)
    (t t' : value F) (e : exn) :
  read_nonnumeric rows = Ok data ->
  segment_at data k previous current t t' ->
  candidates previous current = Raise e \/
  (exists edges edge_id,
     candidates previous current = Ok edges /\ edge_id ∈ edges /\
     add_route_id edge_id previous current = Raise e) ->
  (exists e', find_route rows = Raise e') /\
  route_file file rows
  = ([], Some ("Unable to find route for " ++ file)%string).
Proof.
  intros Hdata Hseg Hgeometry.
  assert (exists e', find_route rows = Raise e') as [e' Hfail].
  { unfold find_route. rewrite Hdata. simpl.
    destruct (mapM (fun row => let* x := index row 0 in
                               let* y := index row 1 in Point x y) data)
      as [points|e1] eqn:Hpoints; simpl; [|eauto].
    destruct (LineString points) as [coords|e2] eqn:Hcoords; simpl; [|eauto].
    apply LineString_Ok in Hcoords as ->.
    destruct (mapM (fun row : list (value F) => index row 2) data)
      as [timestamps|e3] eqn:Hstamps; simpl; [|eauto].
    pose proof (item_of_segment _ _ _ _ _ _ _ _ Hpoints Hstamps Hseg) as Hk.
    apply (match_segments_raise _ _ _ _ Hk). intros built. simpl.
    destruct Hgeometry as [->|(edges & edge_id & -> & Hin & Hraise)]; simpl;
      [eauto|].
    by apply (visit_edges_raise _ _ _ _ _ edge_id e). }
  split; [eauto|]. unfold route_file. by rewrite Hfail.
Qed.

(** The timestamps a list of segments adds to a route. *)
Lemma match_segments_stamps items route out :
  foldM match_segment route items = Ok out ->
  exists counts,
    length counts = length items /\
    map snd out
    = map snd route ++ concat (zip_with replicate counts (map snd items)).
Proof.
  revert route; induction items as [|[[p c] t] items IH]; intros route Hf;
    simpl in Hf.
  - injection Hf as <-. exists []. simpl. by rewrite app_nil_r.
  - inv_bind Hf. inv_bind Ha.
    destruct (visit_edges_added _ _ _ _ _ _ Ha) as (added & -> & Hall).
    destruct (IH _ Hf) as (counts & Hlen & ->).
    exists (length added :: counts). split; [simpl; by f_equal|].
    rewrite map_app, <- app_assoc. f_equal. simpl. f_equal.
    clear -Hall. induction Hall as [|entry added (_ & _ & Ht) _ IHa];
      [done|].
    simpl. by rewrite Ht, IHa.
Qed.

Lemma zip_with_replicate_take {A} (counts : list nat) (l : list A) :
  zip_with replicate counts (take (length counts) l)
  = zip_with replicate counts l.
Proof.
  revert l; induction counts as [|n counts IH]; intros [|x l]; simpl; [done..|].
  by rewrite IH.
Qed.

(** X6: a route is in the order of the trace: its timestamps are those of
    the rows of the trace but the last, in order, each repeated as many
    times as edges were recorded for the segment that starts at its row. *)
Theorem find_route_in_trace_order (rows : list (list Cell))
    (route : list (Z * value F)) :
  find_route rows = Ok route ->
  exists data timestamps counts,
    read_nonnumeric rows = Ok data /\
    Forall2 (fun row t => row !! 2 = Some t) data timestamps /\
    length counts = length rows - 1 /\
    map snd route = concat (zip_with replicate counts timestamps).
Proof.
  unfold find_route. intros Hf.
  inv_bind Hf. rename a into data, Ha into Hdata.
  inv_bind Hf. rename a into points, Ha into Hpoints.
  inv_bind Hf. rename a into coords, Ha into Hcoords.
  inv_bind Hf. rename a into timestamps, Ha into Hstamps.
  apply LineString_Ok in Hcoords as ->.
  destruct (match_segments_stamps _ _ _ Hf) as (counts & Hlen & Heq).
  pose proof (mapM_length _ _ _ Hdata) as Hld.
  pose proof (mapM_length _ _ _ Hpoints) as Hlp.
  pose proof (mapM_length _ _ _ Hstamps) as Hlt.
  exists data, timestamps, counts. split; [done|]. split; [|split].
  - apply Forall2_same_length_lookup. split; [done|].
    intros i row t Hrow Ht.
    destruct (mapM_lookup _ _ _ _ _ Hstamps Hrow) as (t' & Ht' & Hidx).
    apply index_Ok in Hidx. congruence.
  - rewrite Hlen, !length_zip_with.
    destruct points as [|p points]; cbn [tail length] in *; lia.
  - rewrite Heq. simpl. f_equal.
    assert (map snd (zip (zip points (tail points)) timestamps)
            = take (length counts) timestamps) as ->.
    { rewrite Hlen. generalize (zip points (tail points)).
      intros segments. clear. revert timestamps.
      induction segments as [|s segments IH]; intros [|t timestamps];
        simpl; [done..|]. by rewrite IH. }
    apply zip_with_replicate_take.
Qed.

End MatcherMore.

(** ** The traffic aggregator: a closed form, and what follows from it *)

Section AggregatorMore.
Context {py_float : PyFloat}.

Lemma visits_cons k entry (entries : list (Z * value F)) :
  visits k (entry :: entries)
  = (if decide (k = fst entry) then 1 else 0) + visits k entries.
Proof.
  unfold visits. case_decide as Heq.
  - by rewrite filter_cons_True by done.
  - by rewrite filter_cons_False by congruence.
Qed.

Lemma visits_app k (entries1 entries2 : list (Z * value F)) :
  visits k (entries1 ++ entries2) = visits k entries1 + visits k entries2.
Proof. unfold visits. by rewrite filter_app, length_app. Qed.

Lemma visits_Permutation k (entries1 entries2 : list (Z * value F)) :
  entries1 ≡ₚ entries2 -> visits k entries1 = visits k entries2.
Proof. intros Hperm. unfold visits. by rewrite Hperm. Qed.

(** The table after the entries: the roads stay, each count has grown by
    the number of entries that name its key. *)
Lemma count_entries_lookup entries (lut lut' : gmap Z (Road * nat)) k :
  foldM count_entry lut entries = Ok lut' ->
  lut' !! k
  = (fun rc => (fst rc, snd rc + visits k entries)) <$> lut !! k.
Proof.
  revert lut; induction entries as [|entry entries IH]; intros lut Hf.
  - injection Hf as <-. destruct (lut !! k) as [[road n]|]; simpl; [|done].
    by rewrite Nat.add_0_r.
  - simpl in Hf. inv_bind Hf. rename a into lut1.
    rewrite (IH lut1 Hf), visits_cons.
    destruct (lut !! k) as [[road n]|] eqn:Hk.
    + rewrite (count_entry_step _ _ _ Ha _ _ _ Hk). simpl.
      case_decide; do 2 f_equal; lia.
    + unfold count_entry in Ha.
      destruct (lut !! fst entry) as [[r m]|] eqn:He; [|discriminate].
      injection Ha as <-. rewrite lookup_insert_ne by congruence.
      by rewrite Hk.
Qed.

(** The first loop: later roads with other identifiers leave a key as it
    is, and the last road with an identifier is the one kept. *)
Lemma seed_fold_other (roads : list Road) (lut0 : gmap Z (Road * nat)) k :
  k ∉ map g_id roads ->
  fold_left (fun lut road => <[g_id road := (road, 0)]> lut) roads lut0 !! k
  = lut0 !! k.
Proof.
  revert lut0; induction roads as [|road roads IH]; intros lut0 Hk; [done|].
  simpl in *. apply not_elem_of_cons in Hk as [Hne Hk].
  rewrite IH by done. by rewrite lookup_insert_ne.
Qed.

Lemma seed_lookup_last road_network road :
  last_with_id road_network road ->
  seed_counts road_network !! g_id road = Some (road, 0).
Proof.
  intros (before & after & -> & Hlast). unfold seed_counts.
  rewrite fold_left_app. simpl.
  rewrite seed_fold_other by done. apply lookup_insert_eq.
Qed.

Lemma seed_lookup_inv road_network k road n :
  seed_counts road_network !! k = Some (road, n) ->
  last_with_id road_network road.
Proof.
  unfold seed_counts. revert k road n.
  induction road_network as [|r roads IH] using rev_ind; intros k road n Hk.
  - simpl in Hk. by rewrite lookup_empty in Hk.
  - rewrite fold_left_app in Hk. simpl in Hk.
    apply lookup_insert_Some in Hk as [[<- Heq]|[Hne Hk]].
    + injection Heq as <- <-. exists roads, []. split; [done|].
      apply not_elem_of_nil.
    + assert (g_id road = k) as Hid.
      { eapply (seed_lookup_zero roads ∅); [|exact Hk].
        intros k' road' n' Hempty. by rewrite lookup_empty in Hempty. }
      destruct (IH _ _ _ Hk) as (before & after & -> & Hlast).
      exists before, (after ++ [r]). split; [by rewrite <- app_assoc|].
      rewrite map_app. intros Hin. apply elem_of_app in Hin as [Hin|Hin];
        [done|]. apply list_elem_of_singleton in Hin. congruence.
Qed.

Lemma seed_counts_zero road_network k road n :
  seed_counts road_network !! k = Some (road, n) -> g_id road = k /\ n = 0.
Proof.
  apply (seed_lookup_zero road_network ∅).
  intros k' road' n' Hempty. by rewrite lookup_empty in Hempty.
Qed.

Lemma omap_ext_all {A B} (f g : A -> option B) (l : list A) :
  (forall x, f x = g x) -> omap f l = omap g l.
Proof.
  intros Hfg. induction l as [|x l IH]; csimpl; [done|].
  by rewrite Hfg, IH.
Qed.

Lemma all_entries_app (files1 files2 : list (string * list (Z * value F))) :
  all_entries (files1 ++ files2) = all_entries files1 ++ all_entries files2.
Proof. unfold all_entries. by rewrite filter_app, map_app, concat_app. Qed.

Lemma all_entries_Permutation (files1 files2 : list (string * list (Z * value F))) :
  files1 ≡ₚ files2 -> all_entries files1 ≡ₚ all_entries files2.
Proof.
  induction 1 as [|f l1 l2 _ IH|f g l|l1 l2 l3 _ IH1 _ IH2].
  - done.
  - change (f :: l1) with ([f] ++ l1). change (f :: l2) with ([f] ++ l2).
    rewrite !all_entries_app. by rewrite IH.
  - change (g :: f :: l) with ([g] ++ [f] ++ l).
    change (f :: g :: l) with ([f] ++ [g] ++ l).
    rewrite !all_entries_app, !app_assoc. f_equiv. apply Permutation_app_comm.
  - by rewrite IH1.
Qed.

(** The aggregator returns only when no entry dangles, and then what it
    returns is read off the seeded table. *)
Lemma add_traffic_count_Ok road_network route_files counted :
  add_traffic_count_to_road_network road_network route_files = Ok counted ->
  dangling_entries road_network (all_entries route_files) = [].
Proof.
  unfold add_traffic_count_to_road_network. rewrite count_routes_entries.
  intros Hadd.
  destruct (count_entries_result road_network (all_entries route_files)
              _ [] (seed_counts_ok road_network)) as [Hraise _].
  destruct (dangling_entries road_network (all_entries route_files));
    [done|].
  rewrite Hraise in Hadd by done. discriminate.
Qed.

Lemma add_traffic_count_closed road_network route_files :
  dangling_entries road_network (all_entries route_files) = [] ->
  add_traffic_count_to_road_network road_network route_files
  = Ok (omap (fun k => (fun rc => annotate (all_entries route_files) (fst rc))
                       <$> seed_counts road_network !! k)
             (lut_keys road_network)).
Proof.
  intros Hd. unfold add_traffic_count_to_road_network.
  rewrite count_routes_entries.
  destruct (count_entries_result road_network (all_entries route_files)
              _ [] (seed_counts_ok road_network)) as [_ Hok].
  destruct (Hok Hd) as [lut Hlut]. rewrite Hlut. simpl. f_equal.
  apply omap_ext_all. intros k.
  rewrite (count_entries_lookup _ _ _ k Hlut).
  destruct (seed_counts road_network !! k) as [[road n]|] eqn:Hk; [|done].
  destruct (seed_counts_zero _ _ _ _ Hk) as [<- ->]. done.
Qed.

Lemma remove_dups_NoDup {A} `{EqDecision A} (l : list A) :
  NoDup l -> remove_dups l = l.
Proof.
  induction 1 as [|x l Hx _ IH]; simpl; [done|].
  destruct (decide_rel elem_of x l) as [Hin|_]; [done | by rewrite IH].
Qed.

Lemma lut_keys_NoDup road_network :
  NoDup (map g_id road_network) -> lut_keys road_network = map g_id road_network.
Proof.
  intros Hnd. unfold lut_keys.
  rewrite remove_dups_NoDup by (by rewrite reverse_Permutation).
  apply reverse_involutive.
Qed.

Lemma last_with_id_NoDup road_network road :
  NoDup (map g_id road_network) -> road ∈ road_network ->
  last_with_id road_network road.
Proof.
  intros Hnd Hin. apply list_elem_of_split in Hin as (before & after & ->).
  exists before, after. split; [done|].
  rewrite map_app in Hnd. apply NoDup_app in Hnd as (_ & _ & Hnd).
  simpl in Hnd. by apply NoDup_cons in Hnd as [Hlast _].
Qed.

(** X7: when the identifiers of the network are unique, the aggregator
    returns the roads of the network, all of them and in their order, each
    with the number of route entries that name it. *)
Theorem traffic_count_unique_ids (road_network : list Road)
    (route_files : list (string * list (Z * value F)))
    (counted : list (Road * nat)) :
  NoDup (map g_id road_network) ->
  add_traffic_count_to_road_network road_network route_files = Ok counted ->
  counted = map (annotate (all_entries route_files)) road_network.
Proof.
  intros Hnd Hadd.
  rewrite (add_traffic_count_closed _ _ (add_traffic_count_Ok _ _ _ Hadd))
    in Hadd.
  injection Hadd as <-. rewrite lut_keys_NoDup by done.
  assert (forall roads,
            (forall road, road ∈ roads -> road ∈ road_network) ->
            omap (fun k => (fun rc => annotate (all_entries route_files) (fst rc))
                           <$> seed_counts road_network !! k)
                 (map g_id roads)
            = map (annotate (all_entries route_files)) roads) as Hsub.
  { induction roads as [|road roads IH]; intros Hin; [done|]. csimpl.
    rewrite (seed_lookup_last road_network road)
      by (apply last_with_id_NoDup; [done | apply Hin; left]).
    csimpl. f_equal. apply IH. intros r Hr. apply Hin. by right. }
  by apply Hsub.
Qed.

(** X8: when roads share an identifier, the aggregator returns one road
    for each identifier, the last of the network with it, at the place of
    the first; each comes with the number of entries that name its
    identifier. *)
Theorem traffic_count_shared_ids (road_network : list Road)
    (route_files : list (string * list (Z * value F)))
    (counted : list (Road * nat)) :
  add_traffic_count_to_road_network road_network route_files = Ok counted ->
  exists kept,
    counted = map (annotate (all_entries route_files)) kept /\
    map g_id kept = lut_keys road_network /\
    NoDup (map g_id kept) /\
    Forall (last_with_id road_network) kept /\
    (forall k, k ∈ map g_id road_network <-> k ∈ map g_id kept).
Proof.
  intros Hadd.
  rewrite (add_traffic_count_closed _ _ (add_traffic_count_Ok _ _ _ Hadd))
    in Hadd.
  injection Hadd as <-.
  assert (forall keys,
            (forall k, k ∈ keys -> k ∈ map g_id road_network) ->
            exists kept,
              omap (fun k => (fun rc => annotate (all_entries route_files)
                                          (fst rc))
                             <$> seed_counts road_network !! k) keys
              = map (annotate (all_entries route_files)) kept /\
              map g_id kept = keys /\
              Forall (last_with_id road_network) kept) as Hkeys.
  { induction keys as [|k keys IH]; intros Hin; [by exists []|].
    destruct IH as (kept & Heq & Hids & Hlast);
      [intros; apply Hin; by right|].
    destruct (seed_counts_ok road_network) as (Hdom & _).
    destruct (proj2 (Hdom k)) as [[road n] Hk]; [apply Hin; left|].
    destruct (seed_counts_zero _ _ _ _ Hk) as [Hid _].
    exists (road :: kept). csimpl. rewrite Hk. csimpl.
    split; [by rewrite Heq|]. split; [by rewrite Hid, Hids|].
    constructor; [by eapply seed_lookup_inv | done]. }
  assert (forall k, k ∈ lut_keys road_network <-> k ∈ map g_id road_network)
    as Hmem.
  { intros k. unfold lut_keys.
    by rewrite elem_of_reverse, elem_of_remove_dups, elem_of_reverse. }
  destruct (Hkeys (lut_keys road_network)) as (kept & Heq & Hids & Hlast);
    [intros k; apply Hmem|].
  exists kept. split; [done|]. split; [done|]. split; [|split; [done|]].
  - rewrite Hids. unfold lut_keys. rewrite reverse_Permutation.
    apply NoDup_remove_dups.
  - intros k. by rewrite Hids, Hmem.
Qed.

(** X9: the counts do not depend on the order in which the route files are
    walked: any permutation of the files gives the same result, counts or
    [KeyError]. *)
Theorem traffic_count_any_order (road_network : list Road)
    (route_files1 route_files2 : list (string * list (Z * value F))) :
  route_files1 ≡ₚ route_files2 ->
  add_traffic_count_to_road_network road_network route_files1
  = add_traffic_count_to_road_network road_network route_files2.
Proof.
  intros Hperm. apply all_entries_Permutation in Hperm.
  assert (dangling_entries road_network (all_entries route_files1)
          ≡ₚ dangling_entries road_network (all_entries route_files2))
    as Hdangling by (unfold dangling_entries; by rewrite Hperm).
  destruct (dangling_entries road_network (all_entries route_files1))
    as [|entry rest] eqn:Hd1.
  - apply Permutation_nil in Hdangling.
    rewrite !add_traffic_count_closed by done. f_equal.
    apply omap_ext_all. intros k.
    destruct (seed_counts road_network !! k) as [[road n]|]; [|done].
    simpl. unfold annotate. simpl. do 2 f_equal.
    by apply visits_Permutation.
  - unfold add_traffic_count_to_road_network.
    rewrite !count_routes_entries.
    destruct (count_entries_result road_network (all_entries route_files1)
                _ [] (seed_counts_ok road_network)) as [Hraise1 _].
    destruct (count_entries_result road_network (all_entries route_files2)
                _ [] (seed_counts_ok road_network)) as [Hraise2 _].
    rewrite Hraise1 by (rewrite Hd1; done).
    rewrite Hraise2; [done|].
    intros Hnil. rewrite Hnil in Hdangling. symmetry in Hdangling.
    by apply Permutation_nil_cons in Hdangling.
Qed.

(** X10: counting two batches of route files together adds their counts,
    road by road; so counts never go down when more files are counted. *)
Theorem traffic_count_adds_up (road_network : list Road)
    (route_files1 route_files2 : list (string * list (Z * value F)))
    (counted1 counted2 : list (Road * nat)) :
  add_traffic_count_to_road_network road_network route_files1 = Ok counted1 ->
  add_traffic_count_to_road_network road_network route_files2 = Ok counted2 ->
  add_traffic_count_to_road_network road_network
    (route_files1 ++ route_files2)
  = Ok (zip_with (fun c1 c2 => (fst c1, snd c1 + snd c2)) counted1 counted2).
Proof.
  intros Hadd1 Hadd2.
  pose proof (add_traffic_count_Ok _ _ _ Hadd1) as Hd1.
  pose proof (add_traffic_count_Ok _ _ _ Hadd2) as Hd2.
  rewrite (add_traffic_count_closed _ _ Hd1) in Hadd1.
  rewrite (add_traffic_count_closed _ _ Hd2) in Hadd2.
  injection Hadd1 as <-. injection Hadd2 as <-.
  rewrite add_traffic_count_closed.
  2: { rewrite all_entries_app. unfold dangling_entries in *.
       by rewrite filter_app, Hd1, Hd2. }
  f_equal. generalize (lut_keys road_network). intros keys.
  induction keys as [|k keys IH]; [done|]. csimpl.
  destruct (seed_counts road_network !! k) as [[road n]|]; csimpl; [|done].
  rewrite IH. f_equal. unfold annotate. simpl.
  by rewrite all_entries_app, visits_app.
Qed.

End AggregatorMore.

(** ** The route collector, and the pipeline of [main] *)

Section CollectorMore.
Context {py_float : PyFloat} {geometry_of_network : RoadGeometry}.

Lemma mapM_Forall2 {A B} (f : A -> result B) (l : list A) (l' : list B) :
  mapM f l = Ok l' -> Forall2 (fun x y => f x = Ok y) l l'.
Proof.
  revert l'; induction l as [|x l IH]; intros l' Hm; simpl in Hm.
  - injection Hm as <-. constructor.
  - inv_bind Hm. inv_bind Hm. injection Hm as <-. constructor; eauto.
Qed.

(** X11: the collector makes one record for each .csv route file, in the
    order of the files; its vehicle is the file name without .csv, its edge
    path lists the edges of the route in order, and its timestamps, the
    integer parts of those of the route, are as many as its edges. One
    timestamp without an integer part (nan, inf, a text that is no
    integer) in any route file, and nothing is collected. *)
Theorem create_single_route_file_records
    (route_files : list (string * list (Z * value F))) :
  (forall records,
     create_single_route_file route_files = Ok records ->
     Forall2 (fun f record =>
                vehicle_id record = remove_csv 0 (fst f) /\
                edge_path record = map fst (snd f) /\
                Forall2 (fun entry t => int_of_value (snd entry) = Ok t)
                        (snd f) (time_stamp record) /\
                length (edge_path record) = length (time_stamp record))
             (filter (fun f => endswith_csv (fst f) = true) route_files)
             records) /\
  (forall f entry e,
     f ∈ route_files -> endswith_csv (fst f) = true -> entry ∈ snd f ->
     int_of_value (snd entry) = Raise e ->
     exists e', create_single_route_file route_files = Raise e').
Proof.
  unfold create_single_route_file. split.
  - intros records Hm. apply mapM_Forall2 in Hm.
    eapply Forall2_impl; [exact Hm|].
    intros f record Hrecord. unfold collect_route in Hrecord.
    inv_bind Hrecord. injection Hrecord as <-. simpl.
    split; [done|]. split; [done|]. split; [by apply mapM_Forall2|].
    apply mapM_length in Ha. by rewrite length_map.
  - intros f entry e Hf Hcsv Hentry Hint.
    destruct (mapM_Raise (fun elem : Z * value F => int_of_value (snd elem))
                (snd f) entry e Hentry Hint) as [e1 He1].
    eapply (mapM_Raise collect_route _ f e1).
    + by apply list_elem_of_filter.
    + unfold collect_route. by rewrite He1.
Qed.

Lemma append_length (s1 s2 : string) :
  String.length (s1 ++ s2) = String.length s1 + String.length s2.
Proof. induction s1 as [|c s1 IH]; simpl; [done | by rewrite IH]. Qed.

Lemma substring_append (s1 s2 : string) n :
  substring (String.length s1) n (s1 ++ s2) = substring 0 n s2.
Proof. induction s1 as [|c s1 IH]; simpl; [done | apply IH]. Qed.

(** X12: for a name without a dot, the file [name.csv] is a .csv file and
    the vehicle identifier made from it is [name]. *)
Theorem vehicle_id_of_file_name (name : string) :
  dot_free name ->
  endswith_csv (name ++ ".csv") = true /\
  remove_csv 0 (name ++ ".csv") = name.
Proof.
  intros Hfree. split.
  - unfold endswith_csv. rewrite append_length. simpl String.length.
    replace (String.length name + 4 - 4) with (String.length name) by lia.
    rewrite substring_append.
    replace (4 <=? String.length name + 4) with true
      by (symmetry; apply Nat.leb_le; lia).
    reflexivity.
  - induction name as [|c name IH]; [reflexivity|].
    destruct Hfree as [Hc Hfree].
    change (String c name ++ ".csv")%string
      with (String c (name ++ ".csv")%string).
    cbn [remove_csv]. unfold csv_suffix. cbn [String.prefix].
    destruct (ascii_dec "." c) as [Heq|_]; [by subst|].
    by rewrite IH.
Qed.

Lemma filter_all {A} (P : A -> Prop) `{forall x, Decision (P x)} (l : list A) :
  Forall P l -> filter P l = l.
Proof.
  induction 1 as [|x l Hx _ IH]; [done|].
  rewrite filter_cons_True by done. by rewrite IH.
Qed.

Lemma elem_of_concat {A} (x : A) (ls : list (list A)) :
  x ∈ concat ls -> exists l, x ∈ l /\ l ∈ ls.
Proof.
  induction ls as [|l ls IH]; simpl; intros Hin;
    [by apply elem_of_nil in Hin|].
  apply elem_of_app in Hin as [Hin|Hin].
  - exists l. split; [done | left].
  - destruct (IH Hin) as (l' & Hx & Hl'). exists l'. split; [done | by right].
Qed.

(** The route files written by the matcher are .csv files, and their
    entries name candidates. *)
Lemma all_entries_find_routes files :
  all_entries (fst (find_routes files))
  = concat (map snd (fst (find_routes files))).
Proof.
  unfold all_entries. f_equal. f_equal.
  apply filter_all. apply Forall_forall. intros f Hf.
  by apply find_routes_names in Hf.
Qed.

Lemma find_routes_entry files entry :
  entry ∈ concat (map snd (fst (find_routes files))) ->
  exists previous current, candidate (fst entry) previous current.
Proof.
  intros Hin. apply elem_of_concat in Hin as (route & Hentry & Hroute).
  apply list_elem_of_fmap in Hroute as ([name route'] & -> & Hfile).
  unfold find_routes in Hfile. simpl in Hfile.
  apply list_elem_of_fmap in Hfile as ([file rows] & Heq & _).
  injection Heq as -> ->. simpl in Hentry. unfold route_file in Hentry.
  destruct (find_route rows) as [route|e] eqn:Hfind; simpl in Hentry;
    [|by apply elem_of_nil in Hentry].
  destruct (find_route_entries _ _ Hfind) as (data & _ & Hall).
  destruct (Hall entry Hentry) as (k & p & c & t & _ & Hcand & _). eauto.
Qed.

Lemma add_traffic_count_sum road_network route_files counted :
  add_traffic_count_to_road_network road_network route_files = Ok counted ->
  traffic_sum counted = length (all_entries route_files).
Proof.
  unfold add_traffic_count_to_road_network. intros Hadd.
  inv_bind Hadd. rename a into lut. injection Hadd as <-.
  rewrite count_routes_entries in Ha.
  destruct (count_entries_ok _ _ _ _ _ (seed_counts_ok road_network) Ha)
    as (Hdom & _ & Hsum & _).
  simpl in Hsum. rewrite <- Hsum. unfold traffic_sum.
  by rewrite (lut_keys_items road_network lut Hdom).
Qed.

Section ReadBack.
Context {csv_writer : CsvWriter}.

(** The route files read back have the names and the lengths of the
    routes written, and every identifier read back is the one written,
    when the identifiers written read back as themselves. *)
Lemma reread_route_ids (ids : list Z) route stored :
  (forall edge_id first,
     edge_id ∈ ids ->
     read_cell (unquoted (str_of_int edge_id)) = Ok first ->
     int_of_value first = Ok edge_id) ->
  Forall (fun entry => fst entry ∈ ids) route ->
  mapM reread_entry route = Ok stored ->
  map fst stored = map fst route.
Proof.
  intros Hids Hroute. revert stored.
  induction Hroute as [|entry route Hentry _ IH]; intros stored Hm;
    simpl in Hm.
  - by injection Hm as <-.
  - inv_bind Hm. inv_bind Hm. injection Hm as <-. simpl.
    f_equal; [|by apply IH].
    unfold reread_entry in Ha. inv_bind Ha. inv_bind Ha. inv_bind Ha.
    injection Ha as <-. simpl.
    pose proof (Hids _ _ Hentry Ha1) as Hid. congruence.
Qed.

Lemma reread_routes_entries (ids : list Z) route_files stored :
  (forall edge_id first,
     edge_id ∈ ids ->
     read_cell (unquoted (str_of_int edge_id)) = Ok first ->
     int_of_value first = Ok edge_id) ->
  Forall (fun f => Forall (fun entry => fst entry ∈ ids) (snd f)) route_files ->
  reread_routes route_files = Ok stored ->
  map fst stored = map fst route_files /\
  map fst (concat (map snd stored)) = map fst (concat (map snd route_files)).
Proof.
  intros Hids Hfiles. revert stored. unfold reread_routes.
  induction Hfiles as [|f route_files Hf _ IH]; intros stored Hm;
    simpl in Hm.
  - by injection Hm as <-.
  - inv_bind Hm. inv_bind Hm. injection Hm as <-.
    inv_bind Ha. injection Ha as <-. simpl.
    destruct (IH _ Ha0) as [Hnames Hentries].
    split; [by f_equal|].
    rewrite !map_app, Hentries. f_equal.
    by eapply reread_route_ids.
Qed.

(** X13: in the pipeline of [main] the aggregator never meets an unknown
    edge. When the spatial index returns identifiers of the road network
    only, and the identifiers of the network read back as themselves from
    the text written for them (an identifier that [float] cannot hold does
    not), then the route files written by [find_routes], once they can be
    read back, are counted without [KeyError], and the counts add up to the
    number of entries of all the route files. *)
Theorem main_counts_routes (road_network : list Road)
    (files : list (string * list (list Cell)))
    (stored : list (string * list (Z * value F))) :
  (forall previous current edge_id,
     candidate edge_id previous current ->
     edge_id ∈ map g_id road_network) ->
  (forall edge_id first,
     edge_id ∈ map g_id road_network ->
     read_cell (unquoted (str_of_int edge_id)) = Ok first ->
     int_of_value first = Ok edge_id) ->
  reread_routes (fst (find_routes files)) = Ok stored ->
  exists counted,
    add_traffic_count_to_road_network road_network stored = Ok counted /\
    traffic_sum counted = length (concat (map snd (fst (find_routes files)))).
Proof.
  intros Hindex Hids Hstored.
  assert (Forall (fun f => Forall (fun entry =>
                                     fst entry ∈ map g_id road_network) (snd f))
                 (fst (find_routes files))) as Hcands.
  { apply Forall_forall. intros f Hf. apply Forall_forall. intros entry Hentry.
    destruct (find_routes_entry files entry) as (p & c & Hcand); [|eauto].
    apply list_elem_of_lookup in Hf as [i Hi].
    rewrite <- (take_drop_middle _ _ _ Hi), !map_app, concat_app.
    apply elem_of_app. right. simpl. apply elem_of_app. by left. }
  destruct (reread_routes_entries _ _ _ Hids Hcands Hstored)
    as [Hnames Hentries].
  assert (all_entries stored = concat (map snd stored)) as Hall.
  { unfold all_entries. f_equal. f_equal. apply filter_all.
    apply Forall_forall. intros f Hf.
    assert (fst f ∈ map fst (fst (find_routes files))) as Hname.
    { rewrite <- Hnames. apply list_elem_of_fmap. eauto. }
    apply list_elem_of_fmap in Hname as (g & -> & Hg).
    by apply find_routes_names in Hg. }
  assert (dangling_entries road_network (all_entries stored) = []) as Hd.
  { apply no_dangling_entries, Forall_forall. intros entry Hentry.
    rewrite Hall in Hentry.
    assert (fst entry ∈ map fst (concat (map snd (fst (find_routes files)))))
      as Hfst.
    { rewrite <- Hentries. apply list_elem_of_fmap. eauto. }
    apply list_elem_of_fmap in Hfst as (written & -> & Hwritten).
    destruct (find_routes_entry _ _ Hwritten) as (p & c & Hcand). eauto. }
  rewrite (add_traffic_count_closed _ _ Hd). eexists. split; [done|].
  rewrite <- (length_map fst (concat (map snd (fst (find_routes files))))),
    <- Hentries, length_map, <- Hall.
  apply (add_traffic_count_sum road_network).
  by rewrite (add_traffic_count_closed _ _ Hd).
Qed.

End ReadBack.

(** X14: the two results of [main] agree: the counts of the annotated
    network add up to the total length of the edge paths of the collected
    routes. *)
Theorem main_counts_match_records (road_network : list Road)
    (files : list (string * list (list Cell)))
    (counted : list (Road * nat)) (records : list RouteRecord) :
  add_traffic_count_to_road_network road_network (fst (find_routes files))
  = Ok counted ->
  create_single_route_file (fst (find_routes files)) = Ok records ->
  traffic_sum counted
  = sum_list (map (fun record => length (edge_path record)) records).
Proof.
  intros Hadd Hrecords.
  rewrite (add_traffic_count_sum _ _ _ Hadd).
  unfold create_single_route_file in Hrecords. unfold all_entries.
  apply mapM_Forall2 in Hrecords.
  induction Hrecords as [|f record fs records Hrecord _ IH]; [done|].
  simpl. rewrite length_app, IH. f_equal.
  unfold collect_route in Hrecord. inv_bind Hrecord.
  injection Hrecord as <-. simpl. by rewrite length_map.
Qed.

End CollectorMore.

(** ** The functions outside [main] *)

Section PointsAndClip.
Context {py_float : PyFloat}.

Lemma point_rows_partial file good bad rest :
  Forall (fun row => exists feature, point_feature file row = Ok feature)
         good ->
  (exists e, point_feature file bad = Raise e) ->
  exists features,
    point_rows file (good ++ bad :: rest) = (features, true) /\
    Forall2 (fun row feature => point_feature file row = Ok feature)
            good features.
Proof.
  intros Hgood [e Hbad].
  induction Hgood as [|row good [feature Hrow] _ (features & IH & Hall)];
    simpl.
  - rewrite Hbad. exists []. split; [done | constructor].
  - rewrite Hrow, IH. exists (feature :: features).
    split; [done | by constructor].
Qed.

Lemma process_gps_trace_into_points_app files1 files2 :
  process_gps_trace_into_points (files1 ++ files2)
  = (fst (process_gps_trace_into_points files1)
     ++ fst (process_gps_trace_into_points files2),
     snd (process_gps_trace_into_points files1)
     ++ snd (process_gps_trace_into_points files2)).
Proof.
  unfold process_gps_trace_into_points. simpl.
  by rewrite !filter_app, !map_app, concat_app.
Qed.

(** X15: [process_gps_trace_into_points] keeps a part of a file that
    fails: when a row of a .csv file raises (a missing field, a coordinate
    that is not a number), the rows between the first row and that row are
    in the result, every row after it is dropped, and the message is
    printed for the file; the first row is never in the result, and the
    other files give what they give without it. *)
Theorem process_gps_trace_keeps_rows_before_failure
    (before after : list (string * list (list string)))
    (file : string) (first bad : list string)
    (good rest : list (list string)) :
  endswith_csv file = true ->
  Forall (fun row => exists feature, point_feature file row = Ok feature)
         good ->
  (exists e, point_feature file bad = Raise e) ->
  exists features,
    Forall2 (fun row feature => point_feature file row = Ok feature)
            good features /\
    process_gps_trace_into_points
      (before ++ (file, first :: good ++ bad :: rest) :: after)
    = (fst (process_gps_trace_into_points before) ++ features
       ++ fst (process_gps_trace_into_points after),
       snd (process_gps_trace_into_points before) ++ file
       :: snd (process_gps_trace_into_points after)).
Proof.
  intros Hcsv Hgood Hbad.
  destruct (point_rows_partial file good bad rest Hgood Hbad)
    as (features & Hrows & Hall).
  exists features. split; [done|].
  change ((file, first :: good ++ bad :: rest) :: after)
    with ([(file, first :: good ++ bad :: rest)] ++ after).
  rewrite !process_gps_trace_into_points_app. simpl.
  rewrite (filter_cons_True (fun f : string * list (list string) =>
                               endswith_csv (fst f) = true)) by done.
  rewrite filter_nil. simpl. rewrite Hrows. simpl.
  rewrite filter_cons_True by (simpl; by rewrite Hrows).
  rewrite filter_nil. simpl. by rewrite app_nil_r.
Qed.

Section ClipProperties.
Context {csv_writer : CsvWriter}.
Variable within : value F -> value F -> result bool.

Lemma clip_rows_again (rows : list (list Cell)) tested :
  (forall row fields, row ∈ rows -> mapM read_cell row = Ok fields ->
                      mapM read_cell (map written_value fields) = Ok fields) ->
  mapM (clip_row within) rows = Ok tested ->
  mapM (clip_row within)
       (map (map written_value) (omap (fun kept => kept) tested))
  = Ok (map Some (omap (fun kept => kept) tested)).
Proof.
  revert tested; induction rows as [|row rows IH]; intros tested Hround Hm;
    simpl in Hm.
  - by injection Hm as <-.
  - inv_bind Hm. inv_bind Hm. injection Hm as <-. rename a into kept.
    specialize (IH a0 (fun r fs Hr => Hround r fs (list_elem_of_further _ _ _ Hr)) Ha0).
    unfold clip_row in Ha. inv_bind Ha. inv_bind Ha. inv_bind Ha.
    inv_bind Ha. injection Ha as <-.
    destruct a3 eqn:Hwithin; csimpl; [|exact IH].
    rewrite IH. unfold clip_row at 1.
    rewrite (Hround row a) by (done || left). simpl.
    rewrite Ha2, Ha3. simpl. by rewrite Ha4.
Qed.

(** X16: clipping is idempotent on the files whose fields are read back as
    they were read: when, for every row of the file, the fields written
    for the values of the row (a number, or the text of a quoted or empty
    field) are read as these values again, [clip_gps_points] run on the
    file it has written writes the same file. A quoted text that is
    written without quotes is not read back as it was read, and such a
    file is outside the statement. *)
Theorem clip_gps_points_idempotent (rows out : list (list Cell)) :
  (forall row fields, row ∈ rows -> mapM read_cell row = Ok fields ->
                      mapM read_cell (map written_value fields) = Ok fields) ->
  clip_gps_points within rows = Ok out ->
  clip_gps_points within out = Ok out.
Proof.
  unfold clip_gps_points. intros Hround Hclip.
  inv_bind Hclip. injection Hclip as <-.
  rewrite (clip_rows_again rows a Hround Ha). simpl. do 2 f_equal.
  generalize (omap (fun kept : option (list (value F)) => kept) a).
  intros kept.
  induction kept as [|fields kept IH]; csimpl; [done | by rewrite IH].
Qed.

End ClipProperties.

End PointsAndClip.

(** ** The pipeline of [main], from the raw files on *)

Section PipelineMore.
Context {py_float : PyFloat} {geometry_of_network : RoadGeometry}.
Context {csv_writer : CsvWriter}.

Lemma reduse_dataset_walk_names files reduced :
  reduse_dataset_walk files = (reduced, None) ->
  map fst reduced = map fst (filter (fun f => endswith_csv (fst f) = true) files)
  /\ Forall (fun f => endswith_csv (fst f) = true) reduced.
Proof.
  revert reduced; induction files as [|f files IH]; intros reduced Hwalk;
    simpl in Hwalk.
  - by injection Hwalk as <-.
  - destruct (endswith_csv (fst f)) eqn:Hcsv.
    + rewrite filter_cons_True by done.
      destruct (reduse_dataset (snd f)) as [out|e]; [|discriminate].
      destruct (reduse_dataset_walk files) as [sinks e].
      injection Hwalk as <- ->. destruct (IH sinks eq_refl) as [Hnames Hall].
      simpl. split; [by f_equal | by constructor].
    + rewrite filter_cons_False by (by rewrite Hcsv). by apply IH.
Qed.

(** X17: when the reduction of the raw files completes, the collected
    routes have one record for each raw .csv file, in the order of the
    files, matched or not, named after the file. *)
Theorem main_one_record_per_trace_file
    (raw_files reduced : list (string * list (list string)))
    (records : list RouteRecord) :
  reduse_dataset_walk raw_files = (reduced, None) ->
  create_single_route_file (fst (find_routes (written_files reduced)))
  = Ok records ->
  map vehicle_id records
  = map (fun f => remove_csv 0 (fst f))
        (filter (fun f => endswith_csv (fst f) = true) raw_files).
Proof.
  intros Hwalk Hrecords.
  destruct (reduse_dataset_walk_names _ _ Hwalk) as [Hnames Hcsv].
  assert (map (fun f => remove_csv 0 (fst f))
              (filter (fun f => endswith_csv (fst f) = true) raw_files)
          = map (remove_csv 0) (map fst reduced)) as ->
    by (rewrite Hnames; by rewrite map_map).
  unfold create_single_route_file in Hrecords.
  rewrite filter_all in Hrecords
    by (apply Forall_forall; intros f Hf; by apply find_routes_names in Hf).
  unfold find_routes in Hrecords. simpl in Hrecords.
  rewrite filter_all in Hrecords
    by (unfold written_files; by apply Forall_fmap).
  apply mapM_Forall2 in Hrecords. clear Hnames Hcsv Hwalk.
  revert records Hrecords.
  induction reduced as [|f reduced IH]; intros records Hrecords;
    inversion Hrecords as [|? record ? records' Hrecord Hrest]; subst;
    [done|].
  simpl. f_equal; [|by apply IH].
  unfold collect_route in Hrecord. inv_bind Hrecord.
  by injection Hrecord as <-.
Qed.

Lemma mapM_app_Ok {A B} (f : A -> result B) (l1 l2 : list A) r :
  mapM f (l1 ++ l2) = Ok r ->
  exists r1 r2, mapM f l1 = Ok r1 /\ mapM f l2 = Ok r2 /\ r = r1 ++ r2.
Proof.
  rewrite mapM_app. intros Hm. inv_bind Hm. inv_bind Hm.
  injection Hm as <-. eauto.
Qed.

Lemma zip_app_prefix {A B} (a e : list A) (l m : list B) :
  length a <= length l ->
  exists extra, zip (a ++ e) (l ++ m) = zip a l ++ extra.
Proof.
  revert l; induction a as [|x a IH]; intros l Hlen.
  - simpl. eauto.
  - destruct l as [|y l]; [simpl in Hlen; lia|].
    destruct (IH l) as [extra Hextra]; [simpl in Hlen; lia|].
    exists extra. simpl. by rewrite Hextra.
Qed.

(** X18: rows appended to a reduced trace never change the route matched
    so far: the route of the longer trace starts with the route of the
    shorter one. *)
Theorem find_route_append (rows more : list (list Cell))
    (route route' : list (Z * value F)) :
  find_route rows = Ok route ->
  find_route (rows ++ more) = Ok route' ->
  route `prefix_of` route'.
Proof.
  unfold find_route, read_nonnumeric. intros Hshort Hlong.
  inv_bind Hshort. rename a into data, Ha into Hdata.
  inv_bind Hshort. rename a into points, Ha into Hpoints.
  inv_bind Hshort. rename a into coords, Ha into Hcoords.
  inv_bind Hshort. rename a into stamps, Ha into Hstamps.
  apply LineString_Ok in Hcoords as ->.
  inv_bind Hlong. apply mapM_app_Ok in Ha as (d1 & d2 & Hd1 & _ & ->).
  assert (d1 = data) as -> by congruence.
  inv_bind Hlong. apply mapM_app_Ok in Ha as (p1 & p2 & Hp1 & _ & ->).
  assert (p1 = points) as -> by congruence.
  inv_bind Hlong. apply LineString_Ok in Ha as ->.
  inv_bind Hlong. apply mapM_app_Ok in Ha as (t1 & t2 & Ht1 & _ & ->).
  assert (t1 = stamps) as -> by congruence.
  destruct (adjacent_app points p2) as [extra1 Hextra1].
  rewrite Hextra1 in Hlong.
  destruct (zip_app_prefix (zip points (tail points)) extra1 stamps t2)
    as [extra Hextra].
  { apply mapM_length in Hpoints, Hstamps.
    rewrite length_zip_with. lia. }
  rewrite Hextra, foldM_app, Hshort in Hlong. simpl in Hlong.
  destruct (match_segments_added _ _ _ Hlong) as (added & -> & _).
  by exists added.
Qed.

End PipelineMore.

(** ** The further properties on concrete inputs *)

Lemma reduse_dataset_append_witness :
  [["1"; "0"; "200"]%string]
  `prefix_of` [["1"; "0"; "200"]; ["2"; "0"; "300"]]%string.
Proof.
  apply (proj2 (proj2 (@reduse_dataset_append QFloat
                         [raw_row "Latitude" "Longitude" "Time";
                          raw_row "0" "0" "100"; raw_row "1" "0" "200"]
                         [raw_row "1.005" "0" "250";
                          raw_row "2" "0" "300"])));
    reflexivity.
Defined.

(** A row of one field appended to a file that raises [ValueError] makes
    it raise [IndexError]: [data] is built before any row is compared. *)
Lemma appended_row_changes_exception :
  @reduse_dataset QFloat
    [raw_row "Latitude" "Longitude" "Time"; raw_row "0" "0" "100";
     raw_row "north" "0" "200"] = Raise ValueError /\
  @reduse_dataset QFloat
    ([raw_row "Latitude" "Longitude" "Time"; raw_row "0" "0" "100";
      raw_row "north" "0" "200"] ++ [["51C-2"%string]]) = Raise IndexError.
Proof. split; reflexivity. Qed.

Lemma reduse_dataset_walk_stops_witness :
  @reduse_dataset_walk QFloat raw_batch
  = (fst (@reduse_dataset_walk QFloat [("a.csv"%string, raw_trip)])
     ++ [("b.csv"%string, [])], Some IndexError).
Proof.
  apply (@reduse_dataset_walk_stops QFloat
           [("a.csv"%string, raw_trip)] [("c.csv"%string, raw_trip)]
           "b.csv" [["51C-2"%string]] IndexError).
  - constructor; [|constructor]. intros _. eexists. reflexivity.
  - reflexivity.
  - reflexivity.
Defined.

Lemma find_route_no_match_witness :
  @find_route QFloat axis_geometry far_trip = Ok [].
Proof.
  apply (@find_route_no_match QFloat axis_geometry far_trip
           [[QNum 10; QNum 0; QNum 100]; [QNum 11; QNum 0; QNum 200]]).
  - simpl. lia.
  - repeat constructor.
    + exists [QNum 10; QNum 0; QNum 100], (10%Q, 0%Q).
      split; [reflexivity|]. split; [simpl; lia|].
      by exists (QNum 10), (QNum 0).
    + exists [QNum 11; QNum 0; QNum 200], (11%Q, 0%Q).
      split; [reflexivity|]. split; [simpl; lia|].
      by exists (QNum 11), (QNum 0).
  - reflexivity.
  - intros k previous current t t' (row_p & row_c & Hp & Hc & Hprev & _ & Hcur & _).
    destruct k as [|[|k]]; [|done..].
    injection Hp as <-. injection Hc as <-.
    destruct Hprev as (x & y & Hx & Hy & Hxy).
    destruct Hcur as (x' & y' & Hx' & Hy' & Hxy').
    injection Hx as <-. injection Hy as <-.
    injection Hx' as <-. injection Hy' as <-.
    injection Hxy as <-. injection Hxy' as <-.
    exists [7%Z]. split; [reflexivity|].
    intros edge_id Hin. apply list_elem_of_singleton in Hin as ->.
    reflexivity.
Defined.

Lemma find_route_geometry_error_witness :
  (exists e', @find_route QFloat broken_geometry east_trip = Raise e') /\
  @route_file QFloat broken_geometry "c.csv" east_trip
  = ([], Some ("Unable to find route for " ++ "c.csv")%string).
Proof.
  apply (@find_route_geometry_error QFloat broken_geometry "c.csv" east_trip
           [[QNum 0; QNum 0; QNum 100]; [QNum 1; QNum 0; QNum 200];
            [QNum 2; QNum 0; QNum 300]]
           1 (1%Q, 0%Q) (2%Q, 0%Q) (QNum 200) (QNum 300) GeometryError).
  - reflexivity.
  - exists [QNum 1; QNum 0; QNum 200], [QNum 2; QNum 0; QNum 300].
    split; [done|]. split; [done|].
    split; [by exists (QNum 1), (QNum 0)|]. split; [done|].
    split; [by exists (QNum 2), (QNum 0) | done].
  - left. reflexivity.
Defined.

(** The first segment of [east_trip] is matched to edge 7 before the
    index raises for the second. *)
Lemma first_segment_was_matched :
  @match_segment QFloat broken_geometry [] ((0, 0)%Q, (1, 0)%Q, QNum 100)
  = Ok [(7%Z, QNum 100)].
Proof. reflexivity. Qed.

Lemma find_route_in_trace_order_witness :
  exists data timestamps counts,
    @read_nonnumeric QFloat east_trip = Ok data /\
    Forall2 (fun row t => row !! 2 = Some t) data timestamps /\
    length counts = length east_trip - 1 /\
    map snd [(7%Z, QNum 100)] = concat (zip_with replicate counts timestamps).
Proof.
  apply (@find_route_in_trace_order QFloat axis_geometry east_trip).
  reflexivity.
Defined.

Lemma traffic_count_unique_ids_witness :
  [(@mkRoad QFloat 1 [(0, 0); (1, 0)]%Q, 2);
   (@mkRoad QFloat 2 [(1, 0); (2, 0)]%Q, 1)]
  = map (@annotate QFloat (@all_entries QFloat counted_routes)) two_roads.
Proof.
  apply (@traffic_count_unique_ids QFloat two_roads counted_routes).
  - apply (bool_decide_unpack _). reflexivity.
  - reflexivity.
Defined.

Lemma traffic_count_shared_ids_witness :
  exists kept,
    [(@mkRoad QFloat 1 [(5, 0); (6, 0)]%Q, 2);
     (@mkRoad QFloat 2 [(1, 0); (2, 0)]%Q, 1)]
    = map (@annotate QFloat (@all_entries QFloat counted_routes)) kept /\
    map g_id kept = lut_keys twin_roads /\
    NoDup (map g_id kept) /\
    Forall (last_with_id twin_roads) kept /\
    (forall k, k ∈ map g_id twin_roads <-> k ∈ map g_id kept).
Proof.
  apply (@traffic_count_shared_ids QFloat twin_roads counted_routes).
  reflexivity.
Defined.

Lemma traffic_count_any_order_witness :
  @add_traffic_count_to_road_network QFloat two_roads (reverse counted_routes)
  = @add_traffic_count_to_road_network QFloat two_roads counted_routes.
Proof.
  apply (@traffic_count_any_order QFloat two_roads).
  apply reverse_Permutation.
Defined.

Lemma traffic_count_adds_up_witness :
  @add_traffic_count_to_road_network QFloat two_roads
    ([("a.csv"%string, [(1%Z, QNum 100); (2%Z, QNum 200)])]
     ++ [("b.csv"%string, [(1%Z, QNum 300)])])
  = Ok (zip_with (fun c1 c2 => (fst c1, snd c1 + snd c2))
          [(@mkRoad QFloat 1 [(0, 0); (1, 0)]%Q, 1);
           (@mkRoad QFloat 2 [(1, 0); (2, 0)]%Q, 1)]
          [(@mkRoad QFloat 1 [(0, 0); (1, 0)]%Q, 1);
           (@mkRoad QFloat 2 [(1, 0); (2, 0)]%Q, 0)]).
Proof.
  apply (@traffic_count_adds_up QFloat two_roads); reflexivity.
Defined.

Lemma create_single_route_file_records_witness :
  Forall2 (fun f record =>
             vehicle_id record = remove_csv 0 (fst f) /\
             edge_path record = map fst (snd f) /\
             Forall2 (fun entry t => @int_of_value QFloat (snd entry) = Ok t)
                     (snd f) (time_stamp record) /\
             length (edge_path record) = length (time_stamp record))
          (filter (fun f => endswith_csv (fst f) = true)
                  [("a.csv"%string, [(7%Z, QNum 100)]); ("notes.txt"%string, []);
                   ("b.csv"%string, [])])
          [mkRouteRecord "a" [7%Z] [100%Z]; mkRouteRecord "b" [] []].
Proof.
  apply (proj1 (@create_single_route_file_records QFloat
                  [("a.csv"%string, [(7%Z, QNum 100)]); ("notes.txt"%string, []);
                   ("b.csv"%string, [])])).
  reflexivity.
Defined.

Lemma vehicle_id_of_file_name_witness :
  endswith_csv ("51C-1" ++ ".csv") = true /\
  remove_csv 0 ("51C-1" ++ ".csv") = "51C-1"%string.
Proof.
  apply (vehicle_id_of_file_name "51C-1").
  simpl. repeat split; discriminate.
Defined.

Lemma main_counts_routes_witness :
  exists counted,
    @add_traffic_count_to_road_network QFloat axis_network
      [("a.csv"%string, [(7%Z, QNum (1000 # 10))]); ("b.csv"%string, []);
       ("c.csv"%string, [(7%Z, QNum (1000 # 10))])] = Ok counted /\
    @traffic_sum QFloat counted
    = length (concat (map snd (fst (@find_routes QFloat axis_geometry batch)))).
Proof.
  apply (@main_counts_routes QFloat axis_geometry Qwriter axis_network batch).
  - intros previous current edge_id (edges & Hedges & Hin).
    injection Hedges as <-. exact Hin.
  - intros edge_id first Hin Hfirst.
    apply list_elem_of_singleton in Hin as ->.
    injection Hfirst as <-. reflexivity.
  - reflexivity.
Defined.

Lemma main_counts_match_records_witness :
  @traffic_sum QFloat [(@mkRoad QFloat 7 [(0, 0); (3, 0)]%Q, 2)]
  = sum_list (map (fun record => length (edge_path record))
                [mkRouteRecord "a" [7%Z] [100%Z]; mkRouteRecord "b" [] [];
                 mkRouteRecord "c" [7%Z] [100%Z]]).
Proof.
  apply (@main_counts_match_records QFloat axis_geometry axis_network batch);
    reflexivity.
Defined.

Lemma process_gps_trace_keeps_rows_before_failure_witness :
  exists features,
    Forall2 (fun row feature =>
               @point_feature QFloat "p.csv" row = Ok feature)
            [["0"; "0"; "t1"]%string] features /\
    @process_gps_trace_into_points QFloat
      ([] ++ ("p.csv"%string, points_file) :: [("q.csv"%string, [])])
    = (fst (@process_gps_trace_into_points QFloat []) ++ features
       ++ fst (@process_gps_trace_into_points QFloat [("q.csv"%string, [])]),
       snd (@process_gps_trace_into_points QFloat []) ++ "p.csv"%string
       :: snd (@process_gps_trace_into_points QFloat [("q.csv"%string, [])])).
Proof.
  apply (@process_gps_trace_keeps_rows_before_failure QFloat
           [] [("q.csv"%string, [])] "p.csv"
           ["lat"; "lon"; "time"]%string ["north"; "0"; "t2"]%string
           [["0"; "0"; "t1"]%string] [["1"; "0"; "t3"]%string]).
  - reflexivity.
  - constructor; [|constructor]. eexists. reflexivity.
  - eexists. reflexivity.
Defined.

Lemma clip_gps_points_idempotent_witness :
  @clip_gps_points QFloat Qwriter west_half
    [[unquoted "0.0"; unquoted "0.0"; unquoted EmptyString]]
  = Ok [[unquoted "0.0"; unquoted "0.0"; unquoted EmptyString]].
Proof.
  apply (@clip_gps_points_idempotent QFloat Qwriter west_half
           [[unquoted "0.0"; unquoted "0.0"; unquoted EmptyString];
            [unquoted "1.0"; unquoted "1.0"; unquoted EmptyString]]).
  - intros row fields Hrow Hfields.
    apply elem_of_cons in Hrow as [->|Hrow];
      [|apply list_elem_of_singleton in Hrow as ->];
      injection Hfields as <-; reflexivity.
  - reflexivity.
Defined.

(** A quoted text is outside the statement: it is written back without
    quotes, and the second run raises on it. *)
Lemma clip_gps_points_quoted_text :
  @clip_gps_points QFloat Qwriter west_half
    [[unquoted "0.0"; unquoted "0.0"; mkCell true "noon"]]
  = Ok [[unquoted "0.0"; unquoted "0.0"; unquoted "noon"]] /\
  @clip_gps_points QFloat Qwriter west_half
    [[unquoted "0.0"; unquoted "0.0"; unquoted "noon"]]
  = Raise ValueError.
Proof. split; reflexivity. Qed.

Lemma main_one_record_per_trace_file_witness :
  map vehicle_id [mkRouteRecord "a" [7%Z] [200%Z]]
  = map (fun f => remove_csv 0 (fst f))
        (filter (fun f => endswith_csv (fst f) = true)
                [("a.csv"%string, raw_trip); ("readme.txt"%string, [])]).
Proof.
  apply (@main_one_record_per_trace_file QFloat axis_geometry Qwriter
           [("a.csv"%string, raw_trip); ("readme.txt"%string, [])]
           [("a.csv"%string, [["1"; "0"; "200"]; ["2"; "0"; "300"]]%string)]);
    reflexivity.
Defined.

Lemma find_route_append_witness :
  [(7%Z, QNum 100)] `prefix_of` [(7%Z, QNum 100)].
Proof.
  apply (@find_route_append QFloat axis_geometry short_trip
           [map unquoted ["2"; "0"; "300"]%string]); reflexivity.
Defined.
